(** * DCTV x DSF collaboration search: matching, reconciliation and record handling

    A shallow embedding of the decision logic of the three PubMed scripts
    ([01_screen_affiliations.py], [02_search_collaborations.py],
    [03_search_with_names.py]) together with
    the properties stated about it.

    Modelling conventions.
    - A Python [str] is a [text], a list of 8-bit characters.  Case,
      whitespace and word classes are those of the ASCII range; codes above
      127 are caseless, are not whitespace and are not word characters.
    - [re.search] is library code: the fragment of the pattern language that
      the scripts use (literals, [.], [\s], [\b], grouping, alternation,
      [*], [+], [?]) plus the anchors [^] and [$] is given a denotational
      semantics ([Match]) and an executable matcher ([ends], [re_search]).
    - [xml.etree.ElementTree] is library code: a parsed document is an
      [Element] tree, [fromstring] is a parameter of the parsers, and a small
      concrete parser for attribute-free documents is used for examples.
    - Exceptions are values of an error type; a function that can raise
      returns a [result]. *)

From Stdlib Require Import List Ascii String Bool Arith ZArith Lia.
From Stdlib Require Import Permutation Sorted.
Import ListNotations.

Set Implicit Arguments.
Set Warnings "-register-all".

(** ** Text *)

Module Text.

Definition text := list ascii.

Definition str (s : string) : text := list_ascii_of_string s.

Definition code (c : ascii) : nat := nat_of_ascii c.

Definition eqc (c d : ascii) : bool := Ascii.eqb c d.

Fixpoint eqt (s t : text) : bool :=
  match s, t with
  | [], [] => true
  | c :: s', d :: t' => eqc c d && eqt s' t'
  | _, _ => false
  end.

Definition is_upper (c : ascii) : bool := (65 <=? code c) && (code c <=? 90).
Definition is_lower (c : ascii) : bool := (97 <=? code c) && (code c <=? 122).
Definition is_digit (c : ascii) : bool := (48 <=? code c) && (code c <=? 57).

(** [str.isspace] on the ASCII range: TAB..CR, FS..US and the blank. *)
Definition is_space (c : ascii) : bool :=
  ((9 <=? code c) && (code c <=? 13)) || ((28 <=? code c) && (code c <=? 32)).

(** The class [\w]: letters, digits and the underscore. *)
Definition is_word (c : ascii) : bool :=
  is_upper c || is_lower c || is_digit c || (code c =? 95).

Definition newline : ascii := ascii_of_nat 10.
Definition blank : ascii := ascii_of_nat 32.
Definition dquote : ascii := ascii_of_nat 34.

Definition lower_char (c : ascii) : ascii :=
  if is_upper c then ascii_of_nat (code c + 32) else c.

(** [s.lower()] *)
Definition lower (s : text) : text := map lower_char s.

(** [sep.join(parts)] *)
Fixpoint join (sep : text) (parts : list text) : text :=
  match parts with
  | [] => []
  | [p] => p
  | p :: rest => p ++ sep ++ join sep rest
  end.

(** [s.startswith(p)] *)
Fixpoint startswith (p s : text) : bool :=
  match p, s with
  | [], _ => true
  | c :: p', d :: s' => eqc c d && startswith p' s'
  | _ :: _, [] => false
  end.

(** [needle in s] for strings: [needle] occurs as a contiguous run. *)
Fixpoint contains (needle s : text) : bool :=
  startswith needle s ||
  match s with
  | [] => false
  | _ :: s' => contains needle s'
  end.

(** [s in l] for a list of strings. *)
Definition mem (s : text) (l : list text) : bool := existsb (eqt s) l.

(** [s.strip()] *)
Fixpoint lstrip (s : text) : text :=
  match s with
  | c :: s' => if is_space c then lstrip s' else s
  | [] => []
  end.

Definition rstrip (s : text) : text := rev (lstrip (rev s)).

Definition strip (s : text) : text := rstrip (lstrip s).

(** [s.split()]: the maximal runs of non-whitespace characters.  [cur] is the
    run being read, most recent character first. *)
Fixpoint split_ws_aux (cur : text) (s : text) : list text :=
  match s with
  | [] => match cur with [] => [] | _ => [rev cur] end
  | c :: s' =>
      if is_space c
      then match cur with
           | [] => split_ws_aux [] s'
           | _ => rev cur :: split_ws_aux [] s'
           end
      else split_ws_aux (c :: cur) s'
  end.

Definition split_ws (s : text) : list text := split_ws_aux [] s.

(** [s.split(sep)] for a non-empty separator: cut at the leftmost
    non-overlapping occurrences of [sep].  [cur] is the piece being read,
    most recent character first; [skip] counts the characters of an
    occurrence of [sep] still to be dropped. *)
Fixpoint split_on_aux (sep : text) (skip : nat) (cur : text) (s : text)
  : list text :=
  match s with
  | [] => [rev cur]
  | c :: s' =>
      match skip with
      | S k => split_on_aux sep k cur s'
      | O =>
          if startswith sep s
          then rev cur :: split_on_aux sep (List.length sep - 1) [] s'
          else split_on_aux sep 0 (c :: cur) s'
      end
  end.

Definition split_on (sep s : text) : list text := split_on_aux sep 0 [] s.

(** [s[:n]] *)
Definition prefix (n : nat) (s : text) : text := firstn n s.

(** [l[-1]] and [l[:-1]] on a non-empty list. *)
Definition last_item (l : list text) : text := last l [].
Definition but_last (l : list text) : list text := removelast l.

(** Lexicographic order on code points, the order of [str] comparison. *)
Fixpoint ltb (s t : text) : bool :=
  match s, t with
  | _, [] => false
  | [], _ :: _ => true
  | c :: s', d :: t' =>
      (code c <? code d) || ((code c =? code d) && ltb s' t')
  end.

Definition leb (s t : text) : bool := negb (ltb t s).

End Text.

Import Text.

(** ** Regular expressions: the fragment of [re] the scripts rely on *)

Module Regex.

Inductive regex : Type :=
| Eps                       (* the empty pattern *)
| Chr (c : ascii)           (* a literal character *)
| Any                       (* [.] : any character but a newline *)
| Space                     (* [\s] *)
| WordB                     (* [\b] *)
| Bol                       (* [^] *)
| Eol                       (* [$] *)
| Seq (a b : regex)
| Alt (a b : regex)         (* [a|b] *)
| Star (a : regex)          (* [a*] *)
| Plus (a : regex)          (* [a+] *)
| Opt (a : regex)           (* [a?] *)
| Group (a : regex).        (* [(a)] *)

(** A literal word, character by character. *)
Fixpoint lit_text (s : text) : regex :=
  match s with
  | [] => Eps
  | [c] => Chr c
  | c :: s' => Seq (Chr c) (lit_text s')
  end.

Definition lit (s : string) : regex := lit_text (str s).

(** The pattern text of a regex, for comparison with the source. *)
Fixpoint show (r : regex) : text :=
  match r with
  | Eps => []
  | Chr c => [c]
  | Any => str "."
  | Space => str "\s"
  | WordB => str "\b"
  | Bol => str "^"
  | Eol => str "$"
  | Seq a b => show a ++ show b
  | Alt a b => show a ++ str "|" ++ show b
  | Star a => show a ++ str "*"
  | Plus a => show a ++ str "+"
  | Opt a => show a ++ str "?"
  | Group a => str "(" ++ show a ++ str ")"
  end.

(** Patterns without anchors. *)
Fixpoint anchor_free (r : regex) : bool :=
  match r with
  | Bol | Eol => false
  | Eps | Chr _ | Any | Space | WordB => true
  | Seq a b | Alt a b => anchor_free a && anchor_free b
  | Star a | Plus a | Opt a | Group a => anchor_free a
  end.

Section Matching.

(** [ic] is the flag [re.IGNORECASE]; [t] is the subject text. *)
Variable ic : bool.
Variable t : text.

Definition same_char (c d : ascii) : bool :=
  if ic then eqc (lower_char c) (lower_char d) else eqc c d.

(** Is there a word character at position [i]?  Outside the text there is
    none. *)
Definition word_at (i : nat) : bool :=
  match nth_error t i with Some c => is_word c | None => false end.

(** Is there a word character just before position [i]? *)
Definition word_before (i : nat) : bool :=
  match i with O => false | S j => word_at j end.

Definition at_boundary (i : nat) : bool :=
  negb (Bool.eqb (word_before i) (word_at i)).

(** [$] holds at the end of the text and just before a final newline. *)
Definition at_end (i : nat) : bool :=
  (i =? List.length t) ||
  ((S i =? List.length t) &&
   match nth_error t i with Some c => eqc c newline | None => false end).

(** One character satisfying [p] at position [i]. *)
Definition step (p : ascii -> bool) (i : nat) : list nat :=
  match nth_error t i with
  | Some d => if p d then [S i] else []
  | None => []
  end.

(** A zero-width assertion at position [i]. *)
Definition assert (b : bool) (i : nat) : list nat :=
  if b && (i <=? List.length t) then [i] else [].

(** Iteration: every round consumes at least one character, so
    [length t - i] rounds are enough from position [i]. *)
Fixpoint iterate (one : nat -> list nat) (fuel : nat) (i : nat) : list nat :=
  i :: match fuel with
       | O => []
       | S f =>
           flat_map (fun j => if i <? j then iterate one f j else []) (one i)
       end.

(** [ends r i]: the positions where a match of [r] starting at [i] can
    end. *)
Fixpoint ends (r : regex) (i : nat) : list nat :=
  match r with
  | Eps => assert true i
  | Chr c => step (same_char c) i
  | Any => step (fun d => negb (eqc d newline)) i
  | Space => step is_space i
  | WordB => assert (at_boundary i) i
  | Bol => assert (i =? 0) i
  | Eol => assert (at_end i) i
  | Seq a b => flat_map (ends b) (ends a i)
  | Alt a b => ends a i ++ ends b i
  | Star a =>
      if i <=? List.length t then iterate (ends a) (List.length t - i) i else []
  | Plus a =>
      flat_map (fun j => iterate (ends a) (List.length t - j) j) (ends a i)
  | Opt a => assert true i ++ ends a i
  | Group a => ends a i
  end.

Definition matches_at (r : regex) (i : nat) : bool :=
  match ends r i with [] => false | _ :: _ => true end.

(** [re.search(r, t)] as a truth value: a match starts somewhere. *)
Definition search (r : regex) : bool :=
  existsb (matches_at r) (seq 0 (S (List.length t))).

(** The matching relation: [Match r i j] when [r] matches the characters
    of [t] from position [i] up to position [j]. *)
Inductive Match : regex -> nat -> nat -> Prop :=
| MEps i : i <= List.length t -> Match Eps i i
| MChr c d i :
    nth_error t i = Some d -> same_char c d = true -> Match (Chr c) i (S i)
| MAny d i :
    nth_error t i = Some d -> eqc d newline = false -> Match Any i (S i)
| MSpace d i :
    nth_error t i = Some d -> is_space d = true -> Match Space i (S i)
| MWordB i :
    i <= List.length t -> at_boundary i = true -> Match WordB i i
| MBol : Match Bol 0 0
| MEol i : at_end i = true -> Match Eol i i
| MSeq a b i j k : Match a i j -> Match b j k -> Match (Seq a b) i k
| MAltL a b i j : Match a i j -> Match (Alt a b) i j
| MAltR a b i j : Match b i j -> Match (Alt a b) i j
| MStar0 a i : i <= List.length t -> Match (Star a) i i
| MStarS a i j k :
    Match a i j -> i < j -> Match (Star a) j k -> Match (Star a) i k
| MPlus a i j k : Match a i j -> Match (Star a) j k -> Match (Plus a) i k
| MOpt0 a i : i <= List.length t -> Match (Opt a) i i
| MOpt1 a i j : Match a i j -> Match (Opt a) i j
| MGroup a i j : Match a i j -> Match (Group a) i j.

End Matching.

(** [re.search(pattern, subject, re.IGNORECASE)] *)
Definition re_search_ic (pattern : regex) (subject : text) : bool :=
  search true subject pattern.

End Regex.

Import Regex.

(** ** Exceptions *)

Inductive exn : Type :=
| ParseError        (* xml.etree.ElementTree.ParseError *)
| TypeError
| AttributeError
| URLError          (* transport failures of urllib *)
| DecodeError       (* UnicodeDecodeError, json.JSONDecodeError *)
| ValueError.

Inductive result (A : Type) : Type :=
| Ok (a : A)
| Raise (e : exn).

Arguments Ok {A} a.
Arguments Raise {A} e.

Definition bind {A B : Type} (m : result A) (k : A -> result B) : result B :=
  match m with
  | Ok a => k a
  | Raise e => Raise e
  end.

Notation "x <- m ;; k" := (bind m (fun x => k))
  (at level 61, m at next level, right associativity).

(** A value that is a [str] or [None]. *)
Definition pystr := option text.

(** ** Element trees and the record parser *)

Module Xml.

Inductive Element : Type :=
| Elem (tag : text) (etext : pystr) (children : list Element).

Definition tag (e : Element) : text := match e with Elem n _ _ => n end.
Definition etext (e : Element) : pystr := match e with Elem _ x _ => x end.
Definition children (e : Element) : list Element :=
  match e with Elem _ _ cs => cs end.

(** All elements strictly below [e], in document order. *)
Fixpoint descendants (e : Element) : list Element :=
  match e with
  | Elem _ _ cs => flat_map (fun c => c :: descendants c) cs
  end.

Definition has_tag (n : text) (e : Element) : bool := eqt (tag e) n.

(** [e.findall('.//n')] *)
Definition findall_desc (n : text) (e : Element) : list Element :=
  filter (has_tag n) (descendants e).

(** [e.findall('.//p/n')] *)
Definition findall_desc_child (p n : text) (e : Element) : list Element :=
  flat_map (fun a => filter (has_tag n) (children a)) (findall_desc p e).

(** [e.find(path)] is the first element of [e.findall(path)], or [None]. *)
Definition find_desc (n : text) (e : Element) : option Element :=
  hd_error (findall_desc n e).

Definition find_desc_child (p n : text) (e : Element) : option Element :=
  hd_error (findall_desc_child p n e).

(** [e.find('n')]: the first child with tag [n]. *)
Definition find_child (n : text) (e : Element) : option Element :=
  hd_error (filter (has_tag n) (children e)).

(** Truthiness of [elem.text]: a non-empty string. *)
Definition truthy (x : pystr) : bool :=
  match x with Some (_ :: _) => true | _ => false end.

End Xml.

Import Xml.

Record Article : Type := mkArticle {
  pmid : pystr;
  title : pystr;
  journal : pystr;
  year : text;
  authors : list pystr;
  affiliations : list text
}.

Module Parser.

(** [x.text if x is not None else default] *)
Definition text_or (default : text) (x : option Element) : pystr :=
  match x with
  | Some e => etext e
  | None => Some default
  end.

Definition get_year (article : Element) : text :=
  let year_elem :=
    match find_desc_child (str "PubDate") (str "Year") article with
    | Some e => Some e
    | None => find_desc_child (str "PubDate") (str "MedlineDate") article
    end in
  match year_elem with
  | Some e => if truthy (etext e)
              then match etext e with Some s => prefix 4 s | None => [] end
              else []
  | None => []
  end.

(** First loop: every non-empty text at [.//AffiliationInfo/Affiliation]. *)
Fixpoint collect_new (affs : list Element) (affiliations : list text)
  : list text :=
  match affs with
  | [] => affiliations
  | aff :: rest =>
      match etext aff with
      | Some (c :: s) => collect_new rest (affiliations ++ [c :: s])
      | _ => collect_new rest affiliations
      end
  end.

(** Second loop: every non-empty text at [.//Affiliation] that is not in the
    list yet. *)
Fixpoint collect_old (affs : list Element) (affiliations : list text)
  : list text :=
  match affs with
  | [] => affiliations
  | aff :: rest =>
      match etext aff with
      | Some (c :: s) =>
          if negb (mem (c :: s) affiliations)
          then collect_old rest (affiliations ++ [c :: s])
          else collect_old rest affiliations
      | _ => collect_old rest affiliations
      end
  end.

Definition get_affiliations (article : Element) : list text :=
  collect_old (findall_desc (str "Affiliation") article)
    (collect_new
       (findall_desc_child (str "AffiliationInfo") (str "Affiliation") article)
       []).

(** The name of one [Author] element; [Ok None] when it has no [LastName].
    Concatenating with a missing text raises [TypeError]. *)
Definition author_name (author : Element) : result (option pystr) :=
  match find_child (str "LastName") author with
  | None => Ok None
  | Some lastname =>
      match find_child (str "ForeName") author with
      | None => Ok (Some (etext lastname))
      | Some forename =>
          match etext lastname, etext forename with
          | Some l, Some f => Ok (Some (Some (l ++ str " " ++ f)))
          | _, _ => Raise TypeError
          end
      end
  end.

Fixpoint get_authors (els : list Element) (authors : list pystr)
  : result (list pystr) :=
  match els with
  | [] => Ok authors
  | author :: rest =>
      name <- author_name author ;;
      match name with
      | Some n => get_authors rest (authors ++ [n])
      | None => get_authors rest authors
      end
  end.

(** The body of the loop over [PubmedArticle] elements. *)
Definition extract_article (article : Element) : result Article :=
  let pmid := text_or (str "Unknown") (find_desc (str "PMID") article) in
  let title := text_or (str "No title") (find_desc (str "ArticleTitle") article) in
  let journal := text_or [] (find_desc_child (str "Journal") (str "Title") article) in
  let year := get_year article in
  let affiliations := get_affiliations article in
  authors <- get_authors (findall_desc (str "Author") article) [] ;;
  Ok (mkArticle pmid title journal year authors affiliations).

Fixpoint extract_all (els : list Element) (articles : list Article)
  : result (list Article) :=
  match els with
  | [] => Ok articles
  | article :: rest =>
      a <- extract_article article ;;
      extract_all rest (articles ++ [a])
  end.

Section Parse.

(** [ET.fromstring]; [None] stands for [ParseError]. *)
Variable fromstring : text -> option Element.

(** [parse_xml] of [03_search_with_names.py]. *)
Definition parse_xml (xml_data : text) : result (list Article) :=
  match fromstring xml_data with
  | Some root => extract_all (findall_desc (str "PubmedArticle") root) []
  | None => Ok []
  end.

Definition xml_decl : text := str "<?xml version=" ++ [dquote] ++ str "1.0" ++ [dquote].

Definition is_blank (chunk : text) : bool :=
  match strip chunk with [] => true | _ :: _ => false end.

Definition restore (chunk : text) : text :=
  if negb (startswith (str "<?xml") chunk) then xml_decl ++ chunk else chunk.

(** The loop over [xml_chunks] in [parse_articles]. *)
Fixpoint parse_chunks (xml_chunks : list text) (articles : list Article)
  : result (list Article) :=
  match xml_chunks with
  | [] => Ok articles
  | chunk :: rest =>
      if is_blank chunk then parse_chunks rest articles
      else
        match fromstring (restore chunk) with
        | Some root =>
            articles' <- extract_all (findall_desc (str "PubmedArticle") root) articles ;;
            parse_chunks rest articles'
        | None => parse_chunks rest articles
        end
  end.

(** [parse_articles] of [02_search_collaborations.py]. *)
Definition parse_articles (xml_data : text) : result (list Article) :=
  parse_chunks (split_on xml_decl xml_data) [].

End Parse.

End Parser.

(** ** Pattern and roster configuration *)

Module Config.

Definition gap : regex := Star Any.

Notation "a +++ b" := (Seq a b) (at level 60, right associativity).

(** [w1.*w2.* ... .*wn] *)
Fixpoint words (ws : list string) : regex :=
  match ws with
  | [] => Eps
  | [w] => lit w
  | w :: rest => lit w +++ gap +++ words rest
  end.

Definition comma_opt : regex := Opt (Chr ","%char).

(** [cardiac,?\s*thoracic,?\s*(and\s+)?vascular.*<city>] *)
Definition cardiac_list (city : string) : regex :=
  lit "cardiac" +++ comma_opt +++ Star Space +++
  lit "thoracic" +++ comma_opt +++ Star Space +++
  Opt (Group (lit "and" +++ Plus Space)) +++
  lit "vascular" +++ gap +++ lit city.

(** [pharmaceutical\s+(&|and)\s+pharmacological.*<city>] *)
Definition pharma_and (city : string) : regex :=
  lit "pharmaceutical" +++ Plus Space +++
  Group (Alt (Chr "&"%char) (lit "and")) +++ Plus Space +++
  lit "pharmacological" +++ gap +++ lit city.

(** [<a>\s+<b>.*<city>] *)
Definition two_words (a b city : string) : regex :=
  lit a +++ Plus Space +++ lit b +++ gap +++ lit city.

(** The lists of [03_search_with_names.py]. *)
Definition DCTV_PATTERNS : list regex :=
  [ words ["cardiac"; "thoracic"; "vascular"; "sciences"; "public"; "health"];
    words ["cardiac"; "thoracic"; "vascular"; "public"; "health"];
    words ["cardio"; "thoraco"; "vascular"; "public"; "health"];
    words ["cardiovascular"; "public"; "health"; "padov"];
    words ["cardiovascular"; "public"; "health"; "padua"];
    words ["cardiac"; "thoracic"; "vascular"; "sciences"; "padov"];
    words ["cardiac"; "thoracic"; "vascular"; "sciences"; "padua"];
    cardiac_list "padov";
    cardiac_list "padua";
    two_words "legal" "medicine" "padov";
    two_words "legal" "medicine" "padua";
    two_words "medicina" "legale" "padov";
    words ["cardio"; "toraco"; "vascolar"; "sanit"];
    words ["scienze"; "cardio"; "toraco"; "vascolar"];
    WordB +++ lit "dctv" +++ WordB ]%string.

Definition DSF_PATTERNS : list regex :=
  [ words ["pharmaceutical"; "pharmacological"; "sciences"; "padov"];
    words ["pharmaceutical"; "pharmacological"; "sciences"; "padua"];
    pharma_and "padov";
    pharma_and "padua";
    words ["scienze"; "del"; "farmaco"; "padov"];
    words ["scienze"; "del"; "farmaco"; "padua"] ]%string.

(** The lists of [02_search_collaborations.py]. *)
Definition DCTV_PATTERNS_02 : list regex :=
  [ words ["cardiac"; "thoracic"; "vascular"; "public"; "health"];
    words ["cardio"; "thoraco"; "vascular"; "public"; "health"];
    words ["cardiothoracic"; "vascular"; "public"; "health"];
    words ["cardio"; "toraco"; "vascolar"; "sanit"];
    words ["scienze"; "cardio"; "toraco"; "vascolar"];
    lit "dctv" ]%string.

Definition DSF_PATTERNS_02 : list regex :=
  [ words ["pharmaceutical"; "pharmacological"; "sciences"];
    words ["pharmaceutical"; "sciences"; "padov"];
    words ["pharmacological"; "sciences"; "padov"];
    words ["scienze"; "del"; "farmaco"] ]%string.

(** In the pattern text a postfix operator binds to the single item before
    it and [|] spans its whole group: the trees above are the ones the
    pattern texts denote when every operand of [*], [+], [?] is one item and
    every alternation fills a group. *)
Definition item (r : regex) : bool :=
  match r with
  | Chr _ | Any | Space | Group _ => true
  | _ => false
  end.

Fixpoint no_alt (r : regex) : bool :=
  match r with
  | Alt _ _ => false
  | Seq a b => no_alt a && no_alt b
  | _ => true
  end.

Fixpoint alts (r : regex) : bool :=
  match r with
  | Alt a b => alts a && alts b
  | _ => no_alt r
  end.

Fixpoint plain (r : regex) : bool :=
  match r with
  | Seq a b => no_alt a && no_alt b && plain a && plain b
  | Alt a b => plain a && plain b
  | Star a | Plus a | Opt a => item a && plain a
  | Group a => alts a && plain a
  | _ => true
  end.

Definition well_formed (r : regex) : bool := alts r && plain r.

(** Faculty rosters of [03_search_with_names.py], as "Lastname Firstname". *)
Definition DCTV_FACULTY : list text :=
  map str
  [ "Angelini Annalisa"; "Baldo Vincenzo"; "Basso Cristina";
    "Calabrese Fiorella"; "Corrado Domenico"; "Cozzi Emanuele";
    "Gerosa Gino"; "Grego Franco"; "Gregori Dario"; "Montisci Massimo";
    "Spagnolo Paolo"; "Stramare Roberto"; "Tarantini Giuseppe";
    "Tona Francesco"; "Vida Vladimiro"; "Adimari Gianfranco";
    "Aprile Anna"; "Favretto Donata"; "Meloni Federica";
    "Antonello Michele"; "Baldi Ileana"; "Baldovin Tatjana";
    "Baraldo Simonetta"; "Bauce Barbara"; "Bazzan Erica";
    "Bertoncello Chiara"; "Biondini Davide"; "Buja Alessandra";
    "Caenazzo Luciana"; "Caforio Alida"; "Canova Cristina";
    "Carrieri Mariella"; "Castellani Chiara"; "Catelan Dolores";
    "Cipriani Alberto"; "Cocchio Silvia"; "D'Onofrio Augusto";
    "Dell'Amore Andrea"; "Frigo Anna Chiara"; "Gianfredi Vincenza";
    "Iop Laura"; "Mason Paola"; "Migliore Federico"; "Motta Raffaella";
    "Pavanello Sofia"; "Perazzolo Marra Martina"; "Piazza Michele";
    "Pilichou Kalliopi"; "Rizzo Stefania"; "Scapellato Maria Luisa";
    "Schiavon Marco"; "Squizzato Francesco"; "Tarzia Vincenzo";
    "Terranova Claudio"; "Turato Graziella"; "Vianello Andrea";
    "Viel Guido"; "Zampieri Fabio"; "Zorzi Alessandro"; "Menegolo Mirko";
    "Bernardinello Nicol"; "Campisi Manuela"; "Cecere Annagrazia";
    "Colacchio Elda Chiara"; "De Gaspari Monica"; "De Michieli Laura";
    "Faccioli Eleonora"; "Franchetti Giorgia"; "Giordani Andrea Silvio";
    "Graziano Francesca"; "Liviero Filippo"; "Longhini Jessica";
    "Martinato Matteo"; "Ocagli Honoria"; "Sabbatini Daniele";
    "Stoppa Giorgia"; "Tine Mariaenrica"; "Vadori Marta"; "Vedovelli Luca";
    "Zanatta Alberto"; "Giraudo Chiara"; "Lorenzoni Giulia";
    "Pezzuto Federica"; "Tozzo Pamela" ]%string.

Definition DSF_FACULTY : list text :=
  map str
  [ "Brini Marisa"; "Caliceti Paolo"; "Calo Girolamo";
    "Conconi Maria Teresa"; "Gatto Barbara"; "Morari Michele";
    "Moro Stefano"; "Pasut Gianfranco"; "Salmaso Stefano"; "Sissi Claudia";
    "Bertazzo Antonella"; "Chilin Adriana"; "Dalla Via Lisa";
    "De Filippis Vincenzo"; "Dolmella Alessandro"; "Filippini Raffaella";
    "Froldi Guglielmina"; "Miolo Giorgia"; "Bolego Chiara";
    "Colucci Rocchina"; "Comai Stefano"; "Dall'Acqua Stefano";
    "De Martin Sara"; "Di Liddo Rosa"; "Franceschinis Erica";
    "Gandin Valentina"; "Garofalo Mariangela"; "Giron Maria Cecilia";
    "Malfanti Alessio"; "Marzano Cristina"; "Mastrotto Francesca";
    "Mattarei Andrea"; "Montopoli Monica"; "Morpurgo Margherita";
    "Piovan Anna"; "Polverino De Laureto Patrizia"; "Sosic Alice";
    "Spolaore Barbara"; "Sturlese Mattia"; "Zusso Morena";
    "Quintieri Luigi"; "Semenzato Alessandra"; "Trevisi Lucia";
    "Acquasaliente Laura"; "Franchin Cinzia"; "Gabbia Daniela";
    "Bortolozzi Roberta"; "Malfacini Davide"; "Menilli Luca";
    "Rampado Riccardo"; "Grigoletto Antonella"; "Rigo Riccardo";
    "Runfola Massimiliano"; "Salmaso Veronica" ]%string.

End Config.

Import Config.

(** ** Matching and reconciliation *)

Module Matcher.

(** The loop [for pattern in patterns: if re.search(...)] up to its first
    hit. *)
Fixpoint any_pattern (patterns : list regex) (subject : text) : bool :=
  match patterns with
  | [] => false
  | pattern :: rest =>
      if re_search_ic pattern subject then true else any_pattern rest subject
  end.

(** [check_affiliation_match] (both scripts). *)
Definition check_affiliation_match (affiliations : list text)
    (patterns : list regex) : bool :=
  let all_affs := lower (join (str " ") affiliations) in
  any_pattern patterns all_affs.

(** [get_matching_affiliations] of [03_search_with_names.py]. *)
Fixpoint matching_loop (patterns : list regex) (affiliations : list text)
    (matches : list text) : list text :=
  match affiliations with
  | [] => matches
  | aff :: rest =>
      if any_pattern patterns aff
      then if negb (mem aff matches)
           then matching_loop patterns rest (matches ++ [aff])
           else matching_loop patterns rest matches
      else matching_loop patterns rest matches
  end.

Definition get_matching_affiliations (affiliations : list text)
    (patterns : list regex) : list text :=
  matching_loop patterns affiliations [].

(** [get_matching_affiliations] of [02_search_collaborations.py]. *)
Fixpoint matching_loop_02 (patterns : list regex) (affiliations : list text)
    (matches : list text) : list text :=
  match affiliations with
  | [] => matches
  | aff :: rest =>
      if any_pattern patterns aff
      then matching_loop_02 patterns rest (matches ++ [aff])
      else matching_loop_02 patterns rest matches
  end.

Definition get_matching_affiliations_02 (affiliations : list text)
    (patterns : list regex) : list text :=
  matching_loop_02 patterns affiliations [].

(** The test in the body of the inner loop of [check_author_in_list], for an
    author already lowercased and stripped; [false] where the loop
    continues. *)
Definition name_match (author_lower faculty : text) : bool :=
  let fac_lower := strip (lower faculty) in
  let fac_parts := split_ws fac_lower in
  if List.length fac_parts <? 2 then false
  else
    let fac_firstname := last_item fac_parts in
    let fac_lastname := join (str " ") (but_last fac_parts) in
    let author_parts := split_ws author_lower in
    if List.length author_parts <? 2 then false
    else
      let author_firstname := last_item author_parts in
      let author_lastname := join (str " ") (but_last author_parts) in
      eqt author_lastname fac_lastname &&
      (5 <=? List.length author_firstname) &&
      (5 <=? List.length fac_firstname) &&
      eqt (prefix 5 author_firstname) (prefix 5 fac_firstname).

(** The inner loop, left at the first roster entry that matches. *)
Fixpoint first_hit (author_lower : text) (faculty_list : list text) : bool :=
  match faculty_list with
  | [] => false
  | faculty :: rest =>
      if name_match author_lower faculty then true
      else first_hit author_lower rest
  end.

Fixpoint author_loop (faculty_list : list text) (authors : list text)
    (matches : list text) : list text :=
  match authors with
  | [] => matches
  | author :: rest =>
      let author_lower := strip (lower author) in
      if first_hit author_lower faculty_list
      then author_loop faculty_list rest (matches ++ [author])
      else author_loop faculty_list rest matches
  end.

(** [check_author_in_list] on a list of strings. *)
Definition check_author_in_list (authors : list text)
    (faculty_list : list text) : list text :=
  author_loop faculty_list authors [].

End Matcher.

Import Matcher.

(** ** The filtering stage of [main] *)

Module Pipeline.

(** An article annotated with its derived match fields.  The author fields
    exist in [03_search_with_names.py] only. *)
Record Collaboration : Type := mkCollaboration {
  article : Article;
  dctv_affiliations : list text;
  dsf_affiliations : list text;
  dctv_authors : list text;
  dsf_authors : list text
}.

Record Collaboration02 : Type := mkCollaboration02 {
  article02 : Article;
  dctv_affiliations02 : list text;
  dsf_affiliations02 : list text
}.

Definition is_padova (a : Article) : bool :=
  let all_affs := lower (join (str " ") (affiliations a)) in
  contains (str "padov") all_affs || contains (str "padua") all_affs.

(** [02_search_collaborations.py]: the loop [for article in articles]. *)
Fixpoint filter_02 (articles : list Article)
    (collaborations : list Collaboration02) : list Collaboration02 :=
  match articles with
  | [] => collaborations
  | a :: rest =>
      let has_dctv := check_affiliation_match (affiliations a) DCTV_PATTERNS_02 in
      let has_dsf := check_affiliation_match (affiliations a) DSF_PATTERNS_02 in
      if has_dctv && has_dsf
      then if is_padova a
           then filter_02 rest
                  (collaborations ++
                   [mkCollaboration02 a
                      (get_matching_affiliations_02 (affiliations a) DCTV_PATTERNS_02)
                      (get_matching_affiliations_02 (affiliations a) DSF_PATTERNS_02)])
           else filter_02 rest collaborations
      else filter_02 rest collaborations
  end.

(** The author names as strings; [author.lower()] on [None] raises. *)
Fixpoint author_strings (l : list pystr) : result (list text) :=
  match l with
  | [] => Ok []
  | Some s :: rest => r <- author_strings rest ;; Ok (s :: r)
  | None :: _ => Raise AttributeError
  end.

Section Filter03.

Variables dctv_faculty dsf_faculty : list text.

(** [03_search_with_names.py]: the loop [for article in articles]. *)
Fixpoint filter_03 (articles : list Article)
    (collaborations : list Collaboration) : result (list Collaboration) :=
  match articles with
  | [] => Ok collaborations
  | a :: rest =>
      let padova := is_padova a in
      let has_dctv_aff := check_affiliation_match (affiliations a) DCTV_PATTERNS in
      let has_dsf_aff := check_affiliation_match (affiliations a) DSF_PATTERNS in
      names <- author_strings (authors a) ;;
      let dctv_authors := check_author_in_list names dctv_faculty in
      let dsf_authors := check_author_in_list names dsf_faculty in
      let has_both_affiliations := has_dctv_aff && has_dsf_aff && padova in
      if negb has_both_affiliations then filter_03 rest collaborations
      else
        filter_03 rest
          (collaborations ++
           [mkCollaboration a
              (get_matching_affiliations (affiliations a) DCTV_PATTERNS)
              (get_matching_affiliations (affiliations a) DSF_PATTERNS)
              dctv_authors dsf_authors])
  end.

End Filter03.

Definition pystr_eqb (x y : pystr) : bool :=
  match x, y with
  | Some s, Some u => eqt s u
  | None, None => true
  | _, _ => false
  end.

(** Removal of duplicates by PMID; [seen] is the set of PMIDs met so far. *)
Fixpoint dedupe_loop (collaborations : list Collaboration)
    (seen : list pystr) (unique_collabs : list Collaboration)
  : list Collaboration :=
  match collaborations with
  | [] => unique_collabs
  | c :: rest =>
      if negb (existsb (pystr_eqb (pmid (article c))) seen)
      then dedupe_loop rest (pmid (article c) :: seen) (unique_collabs ++ [c])
      else dedupe_loop rest seen unique_collabs
  end.

Definition dedupe (collaborations : list Collaboration) : list Collaboration :=
  dedupe_loop collaborations [] [].

Section Sort.

Variable A : Type.
Variable key : A -> text.

(** [l.sort(key=key, reverse=True)]: a stable sort into descending key
    order.  [x] goes in front of the first element whose key is not
    above its own. *)
Fixpoint insert_desc (x : A) (l : list A) : list A :=
  match l with
  | [] => [x]
  | y :: l' =>
      if leb (key y) (key x) then x :: y :: l' else y :: insert_desc x l'
  end.

Definition sort_desc (l : list A) : list A := fold_right insert_desc [] l.

End Sort.

(** [x.get('year', '0000')]: every record has the key [year]. *)
Definition year_key (c : Collaboration) : text := year (article c).
Definition year_key02 (c : Collaboration02) : text := year (article02 c).

(** The collaboration list of [03_search_with_names.py] before reporting. *)
Definition collaborations_03 (dctv_faculty dsf_faculty : list text)
    (articles : list Article) : result (list Collaboration) :=
  cs <- filter_03 dctv_faculty dsf_faculty articles [] ;;
  Ok (sort_desc year_key (dedupe cs)).

Definition collaborations_02 (articles : list Article) : list Collaboration02 :=
  sort_desc year_key02 (filter_02 articles []).

End Pipeline.

Import Pipeline.

(** ** The search client *)

Module Esearch.

Inductive json : Type :=
| JNull
| JBool (b : bool)
| JNum (n : Z)
| JStr (s : text)
| JArr (items : list json)
| JObj (fields : list (text * json)).

(** One printed line. *)
Inductive line : Type :=
| ErrorLine (label : text) (e : exn)
| CountLine (count : json) (retrieved : nat).

Fixpoint lookup (key : text) (fields : list (text * json)) : option json :=
  match fields with
  | [] => None
  | (k, v) :: rest => if eqt k key then Some v else lookup key rest
  end.

(** [d.get(key, default)]; only a dict has the method. *)
Definition get (d : json) (key : text) (default : json) : result json :=
  match d with
  | JObj fields =>
      Ok (match lookup key fields with Some v => v | None => default end)
  | _ => Raise AttributeError
  end.

(** [len(v)] *)
Definition len (v : json) : result nat :=
  match v with
  | JStr s => Ok (List.length s)
  | JArr items => Ok (List.length items)
  | JObj fields => Ok (List.length fields)
  | _ => Raise TypeError
  end.

Definition BASE_URL : text := str "https://eutils.ncbi.nlm.nih.gov/entrez/eutils/".

Inductive param : Type :=
| PStr (s : text)
| PInt (n : nat).

Section Client.

(** The outside world and the library: opening the URL and reading the
    body, decoding it, parsing JSON, [int] on a string, and the encoding of
    the query string. *)
Variable urlopen_read : text -> result text.
Variable decode : text -> result text.
Variable json_loads : text -> result json.
Variable int_of_str : text -> result Z.
Variable urlencode : list (text * param) -> text.

(** [int(v)] *)
Definition int (v : json) : result Z :=
  match v with
  | JNum n => Ok n
  | JBool b => Ok (if b then 1%Z else 0%Z)
  | JStr s => int_of_str s
  | _ => Raise TypeError
  end.

Definition esearch_url (params : list (text * param)) : text :=
  BASE_URL ++ str "esearch.fcgi?" ++ urlencode params.

(** The statements under [try] in [03_search_with_names.py]. *)
Definition search_body (url : text) : result (json * Z) :=
  raw <- urlopen_read url ;;
  body <- decode raw ;;
  data <- json_loads body ;;
  res <- get data (str "esearchresult") (JObj []) ;;
  count <- get res (str "count") (JStr (str "0")) ;;
  pmids <- get res (str "idlist") (JArr []) ;;
  n <- int count ;;
  Ok (pmids, n).

(** [search_pubmed] of [03_search_with_names.py]: the value returned and
    the lines printed. *)
Definition search_url (query : text) (retmax : nat) : text :=
  let params :=
    [ (str "db", PStr (str "pubmed")); (str "term", PStr query);
      (str "retmax", PInt retmax); (str "retmode", PStr (str "json")) ] in
  esearch_url params.

Definition search_pubmed (query : text) (retmax : nat)
  : (json * Z) * list line :=
  let url := search_url query retmax in
  match search_body url with
  | Ok r => (r, [])
  | Raise e => ((JArr [], 0%Z), [ErrorLine (str "  Error: ") e])
  end.

(** The statements under [try] in [02_search_collaborations.py]. *)
Definition search_body_02 (url : text) : result (json * line) :=
  raw <- urlopen_read url ;;
  body <- decode raw ;;
  data <- json_loads body ;;
  res <- get data (str "esearchresult") (JObj []) ;;
  count <- get res (str "count") (JStr (str "0")) ;;
  pmids <- get res (str "idlist") (JArr []) ;;
  k <- len pmids ;;
  Ok (pmids, CountLine count k).

(** [search_pubmed] of [02_search_collaborations.py]: it returns the
    identifiers alone. *)
Definition search_url_02 (query : text) (retmax : nat) : text :=
  let params :=
    [ (str "db", PStr (str "pubmed")); (str "term", PStr query);
      (str "retmax", PInt retmax); (str "retmode", PStr (str "json"));
      (str "usehistory", PStr (str "y")) ] in
  esearch_url params.

Definition search_pubmed_02 (query : text) (retmax : nat)
  : json * list line :=
  let url := search_url_02 query retmax in
  match search_body_02 url with
  | Ok (pmids, l) => (pmids, [l])
  | Raise e => (JArr [], [ErrorLine (str "Error searching: ") e])
  end.

End Client.

End Esearch.

(** ** The record fetcher *)

Module Fetch.

(** [range(0, stop, step)] for a positive step. *)
Definition range_step (stop step : nat) : list nat :=
  map (fun k => k * step) (seq 0 ((stop + step - 1) / step)).

(** [l[i:j]] *)
Definition slice (A : Type) (i j : nat) (l : list A) : list A :=
  firstn (j - i) (skipn i l).

(** The batches [pmids[i:i+size]] for [i] in [range(0, len(pmids), size)]. *)
Definition batches (size : nat) (pmids : list text) : list (list text) :=
  map (fun i => slice i (i + size) pmids) (range_step (List.length pmids) size).

Section Fetcher.

Variable urlopen_read : text -> result text.
Variable decode : text -> result text.
Variable urlencode : list (text * Esearch.param) -> text.
Variable fromstring : text -> option Element.

Definition efetch_url (batch : list text) : text :=
  let params :=
    [ (str "db", Esearch.PStr (str "pubmed"));
      (str "id", Esearch.PStr (join (str ",") batch));
      (str "retmode", Esearch.PStr (str "xml")) ] in
  Esearch.BASE_URL ++ str "efetch.fcgi?" ++ urlencode params.

(** The statements under [try] in [fetch_articles] of
    [03_search_with_names.py], up to the extension of the list. *)
Definition fetch_batch (batch : list text) : result (list Article) :=
  raw <- urlopen_read (efetch_url batch) ;;
  xml_data <- decode raw ;;
  Parser.parse_xml fromstring xml_data.

Fixpoint fetch_loop (todo : list (list text)) (articles : list Article)
    (log : list Esearch.line) : list Article * list Esearch.line :=
  match todo with
  | [] => (articles, log)
  | batch :: rest =>
      match fetch_batch batch with
      | Ok found => fetch_loop rest (articles ++ found) log
      | Raise e =>
          fetch_loop rest articles
            (log ++ [Esearch.ErrorLine (str "  Fetch error: ") e])
      end
  end.

(** [fetch_articles] of [03_search_with_names.py]: the articles and the
    lines printed. *)
Definition fetch_articles (pmids : list text)
  : list Article * list Esearch.line :=
  match pmids with
  | [] => ([], [])
  | _ :: _ => fetch_loop (batches 50 pmids) [] []
  end.

(** The statements under [try] in [fetch_articles] of
    [02_search_collaborations.py]. *)
Definition fetch_text (batch : list text) : result text :=
  raw <- urlopen_read (efetch_url batch) ;;
  decode raw.

Fixpoint fetch_loop_02 (todo : list (list text)) (all_xml : text)
    (log : list Esearch.line) : text * list Esearch.line :=
  match todo with
  | [] => (all_xml, log)
  | batch :: rest =>
      match fetch_text batch with
      | Ok body => fetch_loop_02 rest (all_xml ++ body) log
      | Raise e =>
          fetch_loop_02 rest all_xml
            (log ++ [Esearch.ErrorLine (str "Error fetching batch: ") e])
      end
  end.

(** [fetch_articles] of [02_search_collaborations.py]: the concatenated
    bodies and the lines printed. *)
Definition fetch_articles_02 (pmids : list text)
  : text * list Esearch.line :=
  match pmids with
  | [] => ([], [])
  | _ :: _ => fetch_loop_02 (batches 100 pmids) [] []
  end.

End Fetcher.

End Fetch.

(** ** The faculty cross-search queries of [03_search_with_names.py] *)

Module Queries.

(** [parts = name.split(); lastname = parts[0];
    firstname = parts[1] if len(parts) > 1 else ""]; [None] stands for the
    [IndexError] of [parts[0]] on a name without tokens. *)
Definition name_parts (name : text) : option (text * text) :=
  match split_ws name with
  | [] => None
  | lastname :: rest =>
      Some (lastname, match rest with firstname :: _ => firstname | [] => [] end)
  end.

Definition quoted (s : string) : text := [dquote] ++ str s ++ [dquote].

Definition padova_clause : text :=
  str " AND (Padova[Affiliation] OR Padua[Affiliation]) AND (".

(** The query for a DCTV faculty member among DSF affiliations. *)
Definition dctv_query (lastname firstname : text) : text :=
  lastname ++ str " " ++ firstname ++ str "[Author]" ++ padova_clause ++
  quoted "Pharmaceutical" ++ str "[Affiliation] OR " ++
  quoted "Pharmacological" ++ str "[Affiliation] OR " ++
  quoted "Farmaco" ++ str "[Affiliation])".

(** The query for a DSF faculty member among DCTV affiliations. *)
Definition dsf_query (lastname firstname : text) : text :=
  lastname ++ str " " ++ firstname ++ str "[Author]" ++ padova_clause ++
  quoted "Cardiac" ++ str "[Affiliation] OR " ++
  quoted "Cardio" ++ str "[Affiliation] OR " ++
  quoted "Public Health" ++ str "[Affiliation] OR " ++
  quoted "Vascular" ++ str "[Affiliation])".

(** The author named in either query. *)
Definition author_term (lastname firstname : text) : text :=
  lastname ++ str " " ++ firstname.

Definition key_dctv : list text :=
  map str
    [ "Basso Cristina"; "Gerosa Gino"; "Corrado Domenico"; "Buja Alessandra";
      "Baldo Vincenzo"; "Calabrese Fiorella"; "Caenazzo Luciana";
      "Favretto Donata"; "Tona Francesco"; "Iop Laura"; "Giraudo Chiara";
      "Tozzo Pamela" ]%string.

Definition key_dsf : list text :=
  map str
    [ "Caliceti Paolo"; "Salmaso Stefano"; "Moro Stefano";
      "De Filippis Vincenzo"; "Conconi Maria Teresa"; "Di Liddo Rosa";
      "Montopoli Monica"; "Gabbia Daniela"; "De Martin Sara"; "Zusso Morena";
      "Miolo Giorgia"; "Acquasaliente Laura" ]%string.

End Queries.

(** ** The affiliation screen of [01_screen_affiliations.py] *)

Module Screen.

(** The loop [for aff in ...: if aff.text: affiliations.append((pmid_text,
    aff.text))]. *)
Fixpoint pairs (pmid_text : pystr) (affs : list Element)
    (affiliations : list (pystr * text)) : list (pystr * text) :=
  match affs with
  | [] => affiliations
  | aff :: rest =>
      match etext aff with
      | Some (c :: u) => pairs pmid_text rest (affiliations ++ [(pmid_text, c :: u)])
      | _ => pairs pmid_text rest affiliations
      end
  end.

(** The body of the loop over [PubmedArticle] elements. *)
Definition record_affiliations (article : Element)
    (affiliations : list (pystr * text)) : list (pystr * text) :=
  let pmid_text := Parser.text_or (str "Unknown") (find_desc (str "PMID") article) in
  pairs pmid_text
    (findall_desc_child (str "AffiliationInfo") (str "Affiliation") article)
    (pairs pmid_text (findall_desc (str "Affiliation") article) affiliations).

Fixpoint records_loop (articles : list Element)
    (affiliations : list (pystr * text)) : list (pystr * text) :=
  match articles with
  | [] => affiliations
  | article :: rest => records_loop rest (record_affiliations article affiliations)
  end.

Section Extract.

Variable fromstring : text -> option Element.

(** [extract_affiliations]: the pairs and the lines printed. *)
Definition extract_affiliations (xml_data : text)
  : list (pystr * text) * list Esearch.line :=
  match fromstring xml_data with
  | Some root =>
      (records_loop (findall_desc (str "PubmedArticle") root) [], [])
  | None => ([], [Esearch.ErrorLine (str "Error parsing XML: ") ParseError])
  end.

End Extract.

(** ['padov' in aff.lower() or 'padua' in aff.lower()] *)
Definition related (aff : text) : bool :=
  contains (str "padov") (lower aff) || contains (str "padua") (lower aff).

(** [d[aff].append(pmid)] on a [defaultdict(list)], kept as the list of its
    items in insertion order. *)
Fixpoint append_to (aff : text) (pmid : pystr) (d : list (text * list pystr))
  : list (text * list pystr) :=
  match d with
  | [] => [(aff, [pmid])]
  | (k, l) :: rest =>
      if eqt k aff then (k, l ++ [pmid]) :: rest
      else (k, l) :: append_to aff pmid rest
  end.

(** The loop [for pmid, aff in affs] of [main]. *)
Fixpoint group (affs : list (pystr * text)) (d : list (text * list pystr))
  : list (text * list pystr) :=
  match affs with
  | [] => d
  | (pmid, aff) :: rest =>
      if related aff then group rest (append_to aff pmid d)
      else group rest d
  end.

End Screen.

(** ** A concrete [fromstring] for plain documents

    Enough of XML to run the parsers on written-out payloads: an optional
    declaration, start tags (whose attributes are dropped), end tags, empty
    element tags and character data.  A document is accepted when its tags
    nest properly around exactly one root element. *)

Module XmlText.

Inductive token : Type :=
| TOpen (name : text)
| TClose (name : text)
| TEmpty (name : text)
| TDecl                 (* [<?...?>] and [<!...>] *)
| TData (s : text).

(** The name of a tag: its content up to the first whitespace. *)
Fixpoint tag_name (s : text) : text :=
  match s with
  | [] => []
  | c :: s' => if is_space c then [] else c :: tag_name s'
  end.

(** The token for the tag content [s] (the characters between the angle
    brackets). *)
Definition classify (s : text) : option token :=
  match s with
  | [] => None
  | c :: s' =>
      if eqc c "?"%char then
        match rev s' with
        | d :: _ => if eqc d "?"%char then Some TDecl else None
        | [] => None
        end
      else if eqc c "!"%char then Some TDecl
      else if eqc c "/"%char then
        match tag_name s' with [] => None | n => Some (TClose n) end
      else
        match rev s with
        | d :: body =>
            if eqc d "/"%char
            then match tag_name (rev body) with
                 | [] => None
                 | n => Some (TEmpty n)
                 end
            else match tag_name s with [] => None | n => Some (TOpen n) end
        | [] => None
        end
  end.

(** [in_tag] tells whether the scan is inside angle brackets; [cur] holds the
    characters read since the last bracket, most recent first. *)
Fixpoint tokenize (in_tag : bool) (cur : text) (s : text)
  : option (list token) :=
  match s with
  | [] =>
      if in_tag then None
      else Some (match cur with [] => [] | _ => [TData (rev cur)] end)
  | c :: s' =>
      if in_tag then
        if eqc c ">"%char then
          match classify (rev cur), tokenize false [] s' with
          | Some tk, Some rest => Some (tk :: rest)
          | _, _ => None
          end
        else if eqc c "<"%char then None
        else tokenize true (c :: cur) s'
      else
        if eqc c "<"%char then
          match tokenize true [] s' with
          | Some rest =>
              Some (match cur with [] => rest | _ => TData (rev cur) :: rest end)
          | None => None
          end
        else tokenize false (c :: cur) s'
  end.

(** An element under construction: its name, its text, and its children so
    far, most recent first. *)
Record frame : Type := mkFrame {
  fname : text;
  ftext : pystr;
  fkids : list Element
}.

Definition close_frame (f : frame) : Element :=
  Elem (fname f) (ftext f) (rev (fkids f)).

Definition add_kid (e : Element) (f : frame) : frame :=
  mkFrame (fname f) (ftext f) (e :: fkids f).

(** Character data becomes the text of the open element until its first
    child; later data is tail text, which the parsers never read. *)
Definition add_data (s : text) (f : frame) : frame :=
  match fkids f with
  | [] => mkFrame (fname f)
            (Some (match ftext f with Some u => u ++ s | None => s end)) []
  | _ => f
  end.

(** Put a finished element under the open element, or make it the root. *)
Definition place (e : Element) (stack : list frame) (root : option Element)
  : option (list frame * option Element) :=
  match stack with
  | f :: up => Some (add_kid e f :: up, root)
  | [] => match root with
          | None => Some ([], Some e)
          | Some _ => None
          end
  end.

Fixpoint build (toks : list token) (stack : list frame)
    (root : option Element) : option Element :=
  match toks with
  | [] => match stack with [] => root | _ :: _ => None end
  | tk :: rest =>
      match tk with
      | TDecl => build rest stack root
      | TData s =>
          match stack with
          | f :: up => build rest (add_data s f :: up) root
          | [] => if forallb is_space s then build rest [] root else None
          end
      | TOpen n =>
          match stack, root with
          | [], Some _ => None
          | _, _ => build rest (mkFrame n None [] :: stack) root
          end
      | TEmpty n =>
          match place (Elem n None []) stack root with
          | Some (stack', root') => build rest stack' root'
          | None => None
          end
      | TClose n =>
          match stack with
          | f :: up =>
              if eqt (fname f) n
              then match place (close_frame f) up root with
                   | Some (stack', root') => build rest stack' root'
                   | None => None
                   end
              else None
          | [] => None
          end
      end
  end.

Definition fromstring (s : text) : option Element :=
  match tokenize false [] s with
  | Some toks => build toks [] None
  | None => None
  end.

End XmlText.

(** ** Reference notions used in the statements *)

Module Spec.

Section FirstOccurrences.

Variables (A K : Type) (key : A -> K) (eqb : K -> K -> bool).

(** The elements of [l] whose key is neither in [seen] nor carried by an
    earlier element of [l], in the order of [l]. *)
Fixpoint first_occurrences (seen : list K) (l : list A) : list A :=
  match l with
  | [] => []
  | x :: rest =>
      if existsb (eqb (key x)) seen then first_occurrences seen rest
      else x :: first_occurrences (key x :: seen) rest
  end.

End FirstOccurrences.

(** [l] with repeated strings dropped, first occurrences kept. *)
Definition distinct (l : list text) : list text :=
  first_occurrences (fun s => s) eqt [] l.

(** [l] is [m] with some elements left out. *)
Inductive subseq (A : Type) : list A -> list A -> Prop :=
| subseq_nil : subseq [] []
| subseq_keep x l m : subseq l m -> subseq (x :: l) (x :: m)
| subseq_drop x l m : subseq l m -> subseq l (x :: m).


(** The three conditions of the collaboration decision. *)
Definition qualifies (dctv dsf : list regex) (a : Article) : bool :=
  check_affiliation_match (affiliations a) dctv &&
  check_affiliation_match (affiliations a) dsf &&
  (contains (str "padov") (lower (join (str " ") (affiliations a))) ||
   contains (str "padua") (lower (join (str " ") (affiliations a)))).


Definition rmap (A B : Type) (f : A -> B) (r : result A) : result B :=
  match r with
  | Ok a => Ok (f a)
  | Raise e => Raise e
  end.

(** A record with the given year and nothing else. *)
Definition with_year (y : string) : Collaboration :=
  mkCollaboration (mkArticle None None None (str y) [] []) [] [] [] [].

Section Before.

Variables (A : Type) (key : A -> text).

(** [x] may come before [y] in a descending list. *)
Definition before (x y : A) : Prop := leb (key y) (key x) = true.

End Before.


(** The non-empty texts of a list of elements, in order. *)
Definition nonempty_texts (els : list Element) : list text :=
  flat_map (fun e => match etext e with
                     | Some (c :: u) => [c :: u]
                     | _ => []
                     end) els.

(** The per-author affiliation texts of a record, and all its affiliation
    texts. *)
Definition per_author_texts (article : Element) : list text :=
  nonempty_texts
    (findall_desc_child (str "AffiliationInfo") (str "Affiliation") article).

Definition all_affiliation_texts (article : Element) : list text :=
  nonempty_texts (findall_desc (str "Affiliation") article).


(** A name, lowercased, cut into its whitespace-delimited tokens; the last
    token is the firstname and the rest, joined by single blanks, is the
    lastname. *)
Definition tokens (name : text) : list text := split_ws (lower name).
Definition firstname_of (name : text) : text := last_item (tokens name).
Definition lastname_of (name : text) : text :=
  join (str " ") (but_last (tokens name)).

(** The matching rule in the words of the specification. *)
Definition same_person (author faculty : text) : Prop :=
  lastname_of author = lastname_of faculty /\
  5 <= List.length (firstname_of author) /\
  5 <= List.length (firstname_of faculty) /\
  firstn 5 (firstname_of author) = firstn 5 (firstname_of faculty).


(** Parsing a list of documents one after the other with [parse_xml],
    keeping the articles in order; the first exception ends the run. *)
Fixpoint parse_each (fromstring : text -> option Element) (docs : list text)
  : result (list Article) :=
  match docs with
  | [] => Ok []
  | doc :: rest =>
      found <- Parser.parse_xml fromstring doc ;;
      more <- parse_each fromstring rest ;;
      Ok (found ++ more)
  end.


(** An [Author] element whose name cannot be put together: it has a
    [LastName] and a [ForeName] and one of the two has no text. *)
Definition bad_author (author : Element) : bool :=
  match find_child (str "LastName") author,
        find_child (str "ForeName") author with
  | Some ln, Some fn =>
      match etext ln, etext fn with
      | Some _, Some _ => false
      | _, _ => true
      end
  | _, _ => false
  end.

(** The display name an [Author] element contributes, if any. *)
Definition display_name (author : Element) : list pystr :=
  match find_child (str "LastName") author with
  | None => []
  | Some ln =>
      match find_child (str "ForeName") author with
      | None => [etext ln]
      | Some fn =>
          match etext ln, etext fn with
          | Some l, Some f => [Some (l ++ str " " ++ f)]
          | _, _ => []
          end
      end
  end.


(** A token: a non-empty run of characters none of which is whitespace. *)
Definition good_token (t : text) : Prop :=
  t <> [] /\ forallb (fun c => negb (is_space c)) t = true.


(** [d.get(k)] on a dictionary kept as the list of its items. *)
Fixpoint assoc (V : Type) (k : text) (d : list (text * V)) : option V :=
  match d with
  | [] => None
  | (k', v) :: rest => if eqt k' k then Some v else assoc k rest
  end.

End Spec.

Import Spec.

(** ** Sample data *)

Module Samples.

Definition dctv_aff : text :=
  str "Department of Cardiac, Thoracic, Vascular Sciences and Public Health, University of Padova, Italy".

Definition dsf_aff : text :=
  str "Department of Pharmaceutical and Pharmacological Sciences, University of Padova, Italy".

Definition joint_article : Article :=
  mkArticle (Some (str "101")) (Some (str "A joint study")) (Some (str "J"))
    (str "2023") [Some (str "Basso Cristina"); Some (str "Moro Stefano")]
    [dctv_aff; dsf_aff].

(** A world without network: every request fails. *)
Definition offline (url : text) : result text := Raise URLError.
Definition no_decode (raw : text) : result text := Raise DecodeError.
Definition no_json (body : text) : result Esearch.json := Raise DecodeError.
Definition no_int (s : text) : result Z := Raise ValueError.
Definition no_encode (params : list (text * Esearch.param)) : text := [].


Definition author_xml (last fore aff : string) : text :=
  str "<Author><LastName>" ++ str last ++ str "</LastName><ForeName>" ++
  str fore ++ str "</ForeName><AffiliationInfo><Affiliation>" ++ str aff ++
  str "</Affiliation></AffiliationInfo></Author>".

(** A record whose two authors carry the same affiliation text. *)
Definition record_xml : text :=
  str "<PubmedArticle><MedlineCitation><PMID>101</PMID><Article><Journal><JournalIssue><PubDate><Year>2023</Year></PubDate></JournalIssue><Title>J</Title></Journal><ArticleTitle>A joint study</ArticleTitle><AuthorList>" ++
  author_xml "Basso" "Cristina" "DCTV, University of Padova" ++
  author_xml "Tona" "Francesco" "DCTV, University of Padova" ++
  str "</AuthorList></Article></MedlineCitation></PubmedArticle>".

Definition document (body : text) : text :=
  Parser.xml_decl ++ str "?><PubmedArticleSet>" ++ body ++
  str "</PubmedArticleSet>".

(** A record cut in the middle of its author list. *)
Definition truncated_record_xml : text :=
  str "<PubmedArticle><MedlineCitation><PMID>102</PMID><Article><AuthorList><Author><LastName>Mor".

(** An author element with two distinct affiliations, as a tree. *)
Definition author_element : Element :=
  Elem (str "Author") None
    [ Elem (str "LastName") (Some (str "Moro")) [];
      Elem (str "AffiliationInfo") None
        [Elem (str "Affiliation") (Some (str "DSF, Padova")) []];
      Elem (str "AffiliationInfo") None
        [Elem (str "Affiliation") (Some (str "CNR, Padova")) []] ].


Definition shared_aff : text := str "DCTV, University of Padova".

(** What the parsers make of [record_xml]. *)
Definition parsed_record : Article :=
  mkArticle (Some (str "101")) (Some (str "A joint study")) (Some (str "J"))
    (str "2023") [Some (str "Basso Cristina"); Some (str "Tona Francesco")]
    [shared_aff; shared_aff].

(** One document holding a whole record and a truncated one. *)
Definition mixed_document : text :=
  Parser.xml_decl ++ str "?><PubmedArticleSet>" ++ record_xml ++
  truncated_record_xml.

(** A whole document followed by a truncated document. *)
Definition two_documents : text :=
  document record_xml ++
  Parser.xml_decl ++ str "?><PubmedArticleSet>" ++ truncated_record_xml.


(** The rest of a document after its declaration. *)
Definition document_rest (body : text) : text :=
  str "?><PubmedArticleSet>" ++ body ++ str "</PubmedArticleSet>".

(** A record with one complete author and one without forename. *)
Definition two_author_record : Element :=
  Elem (str "PubmedArticle") None
    [ Elem (str "PMID") (Some (str "7")) [];
      Elem (str "Author") None
        [ Elem (str "LastName") (Some (str "Moro")) [];
          Elem (str "ForeName") (Some (str "Stefano")) [] ];
      Elem (str "Author") None
        [ Elem (str "LastName") (Some (str "Consortium")) [] ] ].

(** A record with an author whose [LastName] is empty. *)
Definition nameless_author_record : Element :=
  Elem (str "PubmedArticle") None
    [ Elem (str "Author") None
        [ Elem (str "LastName") None [];
          Elem (str "ForeName") (Some (str "Stefano")) [] ] ].


(** A record with a year and a Medline date. *)
Definition dated_record : Element :=
  Elem (str "PubmedArticle") None
    [ Elem (str "PubDate") None
        [ Elem (str "Year") (Some (str "2019")) [];
          Elem (str "MedlineDate") (Some (str "2018 Nov-Dec")) [] ] ].


(** A world whose server answers every request with an empty JSON object. *)
Definition answer (url : text) : result text := Ok (str "{}").
Definition utf8 (raw : text) : result text := Ok raw.
Definition empty_object (body : text) : result Esearch.json :=
  Ok (Esearch.JObj []).
Definition int_zero (s : text) : result Z :=
  if eqt s (str "0") then Ok 0%Z else Raise ValueError.


(** A record whose author has a forename and an empty lastname. *)
Definition nameless_record_xml : text :=
  str "<PubmedArticle><PMID>103</PMID><AuthorList><Author><LastName></LastName><ForeName>Stefano</ForeName></Author></AuthorList></PubmedArticle>".

End Samples.

(** * Properties *)

(** ** The matcher computes the matching relation *)

Section MatcherCorrect.

Variable ic : bool.
Variable t : text.

Let len := List.length t.

Lemma step_spec p i j :
  In j (step t p i) <-> exists d, nth_error t i = Some d /\ p d = true /\ j = S i.
Proof.
  unfold step. destruct (nth_error t i) as [d|] eqn:E.
  - destruct (p d) eqn:P; simpl.
    + split.
      * intros [<-|[]]. now exists d.
      * intros (d' & _ & _ & ->). now left.
    + split; [intros [] | intros (d' & Hd & Hp & _)].
      injection Hd as <-. congruence.
  - simpl. split; [intros [] | intros (d' & Hd & _)]. discriminate.
Qed.

Lemma assert_spec b i j :
  In j (assert t b i) <-> b = true /\ i <= len /\ j = i.
Proof.
  unfold assert. destruct b; simpl.
  - destruct (i <=? List.length t) eqn:E; simpl.
    + apply Nat.leb_le in E. split.
      * intros [<-|[]]. auto.
      * intros (_ & _ & ->). now left.
    + apply Nat.leb_gt in E. split; [intros [] | intros (_ & H & _)].
      unfold len in H. lia.
  - split; [intros [] | intros (H & _)]. discriminate.
Qed.

Lemma step_bound p i j : In j (step t p i) -> i <= j <= len.
Proof.
  intros H. apply step_spec in H as (d & Hd & _ & ->).
  assert (i < len) by (apply nth_error_Some; congruence). lia.
Qed.

Lemma iterate_bound one :
  (forall i j, In j (one i) -> i <= j <= len) ->
  forall fuel i k, i <= len -> In k (iterate one fuel i) -> i <= k <= len.
Proof.
  intros Hone. induction fuel as [|f IH]; intros i k Hi; simpl.
  - intros [<-|[]]. lia.
  - intros [<-|H]; [lia|].
    apply in_flat_map in H as (j & Hj & Hk).
    destruct (i <? j) eqn:E; [|contradiction].
    apply Nat.ltb_lt in E. destruct (Hone _ _ Hj) as [_ Hjl].
    specialize (IH j k Hjl Hk). lia.
Qed.

Lemma ends_bound r : forall i j, In j (ends ic t r i) -> i <= j <= len.
Proof.
  induction r; simpl; intros i j H;
    try (apply assert_spec in H as (_ & Hi & ->); lia);
    try (apply step_bound in H; exact H).
  - apply in_flat_map in H as (m & Hm & Hj).
    apply IHr1 in Hm. apply IHr2 in Hj. lia.
  - apply in_app_or in H as [H|H]; auto.
  - destruct (i <=? List.length t) eqn:E; [|contradiction].
    apply Nat.leb_le in E. now apply (iterate_bound _ IHr) in H.
  - apply in_flat_map in H as (m & Hm & Hj).
    apply IHr in Hm. apply (iterate_bound _ IHr) in Hj; lia.
  - apply in_app_or in H as [H|H]; auto.
    apply assert_spec in H as (_ & Hi & ->). lia.
  - auto.
Qed.

Lemma iterate_mono one fuel :
  forall i k fuel', fuel <= fuel' ->
    In k (iterate one fuel i) -> In k (iterate one fuel' i).
Proof.
  induction fuel as [|f IH]; intros i k fuel' Hle; simpl.
  - intros [<-|[]]. destruct fuel'; simpl; auto.
  - destruct fuel' as [|f']; [lia|]. simpl.
    intros [<-|H]; [now left|right].
    apply in_flat_map in H as (j & Hj & Hk). apply in_flat_map.
    exists j. split; [assumption|].
    destruct (i <? j); [|contradiction]. apply IH; [lia|assumption].
Qed.

Lemma iterate_sound a :
  (forall i j, In j (ends ic t a i) -> Match ic t a i j) ->
  forall fuel i k, i <= len ->
    In k (iterate (ends ic t a) fuel i) -> Match ic t (Star a) i k.
Proof.
  intros Ha. induction fuel as [|f IH]; intros i k Hi; simpl.
  - intros [<-|[]]. now constructor.
  - intros [<-|H]; [now constructor|].
    apply in_flat_map in H as (j & Hj & Hk).
    destruct (i <? j) eqn:E; [|contradiction].
    apply Nat.ltb_lt in E.
    apply MStarS with j; auto.
    apply IH; [|assumption]. apply ends_bound in Hj. lia.
Qed.

Lemma ends_sound r : forall i j, In j (ends ic t r i) -> Match ic t r i j.
Proof.
  induction r; simpl; intros i j H.
  - apply assert_spec in H as (_ & Hi & ->). now constructor.
  - apply step_spec in H as (d & Hd & Hp & ->). now apply MChr with d.
  - apply step_spec in H as (d & Hd & Hp & ->). apply MAny with d; auto.
    now apply negb_true_iff.
  - apply step_spec in H as (d & Hd & Hp & ->). now apply MSpace with d.
  - apply assert_spec in H as (Hb & Hi & ->). now constructor.
  - apply assert_spec in H as (Hb & Hi & ->).
    apply Nat.eqb_eq in Hb as ->. constructor.
  - apply assert_spec in H as (Hb & Hi & ->). now constructor.
  - apply in_flat_map in H as (m & Hm & Hj). apply MSeq with m; auto.
  - apply in_app_or in H as [H|H]; [apply MAltL | apply MAltR]; auto.
  - destruct (i <=? List.length t) eqn:E; [|contradiction].
    apply Nat.leb_le in E. now apply (iterate_sound IHr) in H.
  - apply in_flat_map in H as (m & Hm & Hj).
    apply MPlus with m; auto.
    apply (iterate_sound IHr) in Hj; auto.
    apply ends_bound in Hm. apply Hm.
  - apply in_app_or in H as [H|H].
    + apply assert_spec in H as (_ & Hi & ->). now constructor.
    + apply MOpt1; auto.
  - constructor; auto.
Qed.

Lemma star_ends a i k :
  i <= len -> In k (iterate (ends ic t a) (len - i) i) ->
  In k (ends ic t (Star a) i).
Proof.
  intros Hi H. simpl. apply Nat.leb_le in Hi. fold len. now rewrite Hi.
Qed.

Lemma ends_star a i k :
  In k (ends ic t (Star a) i) ->
  i <= len /\ In k (iterate (ends ic t a) (len - i) i).
Proof.
  simpl. fold len. destruct (i <=? len) eqn:E; [|contradiction].
  apply Nat.leb_le in E. auto.
Qed.

Lemma ends_complete r i j : Match ic t r i j -> In j (ends ic t r i).
Proof.
  induction 1.
  - apply assert_spec. auto.
  - apply step_spec. now exists d.
  - apply step_spec. exists d. repeat split; auto. now apply negb_true_iff.
  - apply step_spec. now exists d.
  - apply assert_spec. auto.
  - apply assert_spec. repeat split; auto. unfold len. lia.
  - apply assert_spec. repeat split; auto.
    unfold at_end in H. apply orb_true_iff in H as [H|H].
    + apply Nat.eqb_eq in H. unfold len. lia.
    + apply andb_true_iff in H as [H _]. apply Nat.eqb_eq in H.
      unfold len. lia.
  - simpl. apply in_flat_map. now exists j.
  - simpl. apply in_or_app. now left.
  - simpl. apply in_or_app. now right.
  - apply star_ends; [assumption|].
    destruct (len - i); simpl; now left.
  - apply ends_star in IHMatch2 as [Hj Hk].
    assert (Hb := ends_bound _ _ _ IHMatch1).
    apply star_ends; [lia|].
    destruct (len - i) as [|f] eqn:E; [lia|].
    simpl. right. apply in_flat_map. exists j. split; [assumption|].
    assert (len - j <= f) by lia.
    apply Nat.ltb_lt in H0. rewrite H0.
    apply iterate_mono with (fuel := len - j); assumption.
  - apply ends_star in IHMatch2 as [Hj Hk].
    simpl. apply in_flat_map. exists j. now split.
  - simpl. apply in_or_app. left. apply assert_spec. auto.
  - simpl. apply in_or_app. now right.
  - assumption.
Qed.

Lemma Match_bound r i j : Match ic t r i j -> i <= j <= len.
Proof. intros H. apply ends_bound with r. now apply ends_complete. Qed.

(** [search] succeeds exactly when the pattern matches some stretch of the
    text. *)
Lemma search_spec r :
  search ic t r = true <-> exists i j, Match ic t r i j.
Proof.
  unfold search, matches_at. rewrite existsb_exists. split.
  - intros (i & _ & H). destruct (ends ic t r i) as [|j l] eqn:E;
      [discriminate|].
    exists i, j. apply ends_sound. rewrite E. now left.
  - intros (i & j & H). exists i. split.
    + apply in_seq. apply Match_bound in H. unfold len in H. lia.
    + apply ends_complete in H. destruct (ends ic t r i); [destruct H|easy].
Qed.

End MatcherCorrect.

(** ** Character classes and lowercasing *)

Ltac by_cases_on_char c :=
  destruct c as [[] [] [] [] [] [] [] []]; vm_compute; reflexivity.

Lemma lower_char_idem c : lower_char (lower_char c) = lower_char c.
Proof. by_cases_on_char c. Qed.

Lemma is_word_lower c : is_word (lower_char c) = is_word c.
Proof. by_cases_on_char c. Qed.

Lemma is_space_lower c : is_space (lower_char c) = is_space c.
Proof. by_cases_on_char c. Qed.

Lemma is_newline_lower c : eqc (lower_char c) newline = eqc c newline.
Proof. by_cases_on_char c. Qed.

Lemma lower_app s u : lower (s ++ u) = lower s ++ lower u.
Proof. apply map_app. Qed.

Lemma lower_length s : List.length (lower s) = List.length s.
Proof. apply length_map. Qed.

Lemma eqc_eq c d : eqc c d = true <-> c = d.
Proof. apply Ascii.eqb_eq. Qed.

Lemma eqt_eq s : forall u, eqt s u = true <-> s = u.
Proof.
  induction s as [|c s IH]; intros [|d u]; simpl; split; try easy.
  - intros H. apply andb_true_iff in H as [Hc Hs].
    apply eqc_eq in Hc. apply IH in Hs. congruence.
  - intros H. injection H as -> ->. apply andb_true_iff. split.
    + now apply eqc_eq.
    + now apply IH.
Qed.

Lemma eqt_refl s : eqt s s = true.
Proof. now apply eqt_eq. Qed.

Lemma mem_In s l : mem s l = true <-> In s l.
Proof.
  unfold mem. rewrite existsb_exists. split.
  - intros (u & Hu & E). apply eqt_eq in E. now subst.
  - intros H. exists s. split; [assumption | apply eqt_refl].
Qed.

Lemma mem_false s l : mem s l = false <-> ~ In s l.
Proof.
  rewrite <- mem_In. destruct (mem s l); split; congruence.
Qed.

(** ** A match inside one string survives lowercasing and embedding *)

Section Embedding.

Variables pre s post : text.

(** The character before [s] and the character after it, if any, are not
    word characters. *)
Hypothesis Hpre :
  forall k c, S k = List.length pre -> nth_error pre k = Some c ->
              is_word c = false.
Hypothesis Hpost : forall c, nth_error post 0 = Some c -> is_word c = false.

Let whole := pre ++ lower s ++ post.
Let off := List.length pre.

Lemma whole_length :
  List.length whole = off + List.length s + List.length post.
Proof.
  unfold whole, off. rewrite !length_app, lower_length. lia.
Qed.

Lemma whole_nth i d :
  nth_error s i = Some d -> nth_error whole (off + i) = Some (lower_char d).
Proof.
  intros H. unfold whole, off.
  rewrite nth_error_app2 by lia.
  replace (List.length pre + i - List.length pre) with i by lia.
  rewrite nth_error_app1.
  - unfold lower. now rewrite nth_error_map, H.
  - rewrite lower_length. apply nth_error_Some. congruence.
Qed.

Lemma whole_word_at i :
  i <= List.length s -> word_at whole (off + i) = word_at s i.
Proof.
  intros Hi. unfold word_at.
  destruct (nth_error s i) as [d|] eqn:E.
  - rewrite (whole_nth _ E). apply is_word_lower.
  - apply nth_error_None in E. assert (i = List.length s) as -> by lia.
    unfold whole, off. rewrite nth_error_app2 by lia.
    rewrite nth_error_app2 by (rewrite lower_length; lia).
    rewrite lower_length.
    replace (List.length pre + List.length s - List.length pre
             - List.length s) with 0 by lia.
    destruct (nth_error post 0) as [c|] eqn:P; [|reflexivity].
    now apply Hpost.
Qed.

Lemma whole_word_before i :
  i <= List.length s -> word_before whole (off + i) = word_before s i.
Proof.
  intros Hi. destruct i as [|i].
  - rewrite Nat.add_0_r. simpl. unfold word_before.
    destruct off as [|k] eqn:E; [reflexivity|].
    unfold word_at, whole. rewrite nth_error_app1 by (fold off; lia).
    destruct (nth_error pre k) as [c|] eqn:P; [|reflexivity].
    apply Hpre with k; [now fold off|assumption].
  - replace (off + S i) with (S (off + i)) by lia. simpl.
    apply whole_word_at. lia.
Qed.

Lemma whole_boundary i :
  i <= List.length s -> at_boundary whole (off + i) = at_boundary s i.
Proof.
  intros Hi. unfold at_boundary.
  now rewrite whole_word_at, whole_word_before.
Qed.

Lemma same_char_lower c d :
  same_char true c d = true -> same_char true c (lower_char d) = true.
Proof. unfold same_char. now rewrite lower_char_idem. Qed.

Lemma Match_embed r i j :
  Match true s r i j -> anchor_free r = true ->
  Match true whole r (off + i) (off + j).
Proof.
  induction 1; simpl; intros Haf;
    try discriminate;
    try (apply andb_true_iff in Haf as [Ha Hb]).
  - apply MEps. rewrite whole_length. lia.
  - replace (off + S i) with (S (off + i)) by lia.
    apply MChr with (lower_char d).
    + now apply whole_nth.
    + now apply same_char_lower.
  - replace (off + S i) with (S (off + i)) by lia.
    apply MAny with (lower_char d).
    + now apply whole_nth.
    + now rewrite is_newline_lower.
  - replace (off + S i) with (S (off + i)) by lia.
    apply MSpace with (lower_char d).
    + now apply whole_nth.
    + now rewrite is_space_lower.
  - apply MWordB.
    + rewrite whole_length. lia.
    + now rewrite whole_boundary.
  - apply MSeq with (off + j); auto.
  - apply MAltL; auto.
  - apply MAltR; auto.
  - apply MStar0. rewrite whole_length. lia.
  - apply MStarS with (off + j); auto. lia.
  - apply MPlus with (off + j); auto.
  - apply MOpt0. rewrite whole_length. lia.
  - apply MOpt1; auto.
  - apply MGroup; auto.
Qed.

End Embedding.

(** ** Joining *)

Lemma join_cons sep p q rest :
  join sep (p :: q :: rest) = p ++ sep ++ join sep (q :: rest).
Proof. reflexivity. Qed.

(** Each part of a joined text sits in it between separators. *)
Lemma join_In sep parts s :
  In s parts ->
  exists pre post,
    join sep parts = pre ++ s ++ post /\
    (pre = [] \/ exists p, pre = p ++ sep) /\
    (post = [] \/ exists p, post = sep ++ p).
Proof.
  induction parts as [|p [|q rest] IH]; intros H.
  - destruct H.
  - destruct H as [->|[]]. exists [], []. simpl. rewrite app_nil_r. auto.
  - rewrite join_cons. destruct H as [->|H].
    + exists [], (sep ++ join sep (q :: rest)). simpl.
      split; [reflexivity|]. split; [now left|]. right. now eexists.
    + destruct (IH H) as (pre & post & E & Hpre & Hpost).
      exists (p ++ sep ++ pre), post. rewrite E. split; [|split].
      * now rewrite <- !app_assoc.
      * right. destruct Hpre as [->|(p' & ->)].
        -- exists p. now rewrite app_nil_r.
        -- exists (p ++ sep ++ p'). now rewrite <- !app_assoc.
      * assumption.
Qed.

Lemma any_pattern_spec patterns subject :
  any_pattern patterns subject = true <->
  exists p, In p patterns /\ re_search_ic p subject = true.
Proof.
  induction patterns as [|p rest IH]; simpl.
  - split; [discriminate | intros (p & [] & _)].
  - destruct (re_search_ic p subject) eqn:E.
    + split; [|reflexivity]. intros _. exists p. auto.
    + rewrite IH. split.
      * intros (q & Hq & Hs). exists q. auto.
      * intros (q & [<-|Hq] & Hs); [congruence|]. exists q. auto.
Qed.


(** ** First occurrences *)

Section FirstOccurrencesFacts.

Variables (A K : Type) (key : A -> K) (eqb : K -> K -> bool).
Hypothesis eqb_eq : forall x y, eqb x y = true <-> x = y.

Let fo := first_occurrences key eqb.

Lemma seen_In k seen : existsb (eqb k) seen = true <-> In k seen.
Proof.
  rewrite existsb_exists. split.
  - intros (y & Hy & E). apply eqb_eq in E. now subst.
  - intros H. exists k. split; [assumption|now apply eqb_eq].
Qed.

Lemma seen_not_In k seen : existsb (eqb k) seen = false <-> ~ In k seen.
Proof.
  rewrite <- seen_In. destruct (existsb (eqb k) seen); split; congruence.
Qed.

Lemma first_occurrences_ext l :
  forall seen seen', (forall k, In k seen <-> In k seen') ->
                     fo seen l = fo seen' l.
Proof.
  induction l as [|x l IH]; intros seen seen' H; simpl; [reflexivity|].
  destruct (existsb (eqb (key x)) seen) eqn:E.
  - apply seen_In in E. apply H in E. apply seen_In in E. rewrite E.
    now apply IH.
  - apply seen_not_In in E. rewrite H in E. apply seen_not_In in E.
    rewrite E. f_equal. apply IH. intros k. simpl. now rewrite H.
Qed.

Lemma first_occurrences_subseq l : forall seen, subseq (fo seen l) l.
Proof.
  induction l as [|x l IH]; intros seen; simpl.
  - constructor.
  - destruct (existsb (eqb (key x)) seen); constructor; apply IH.
Qed.

Lemma first_occurrences_In l :
  forall seen x, In x (fo seen l) -> In x l /\ ~ In (key x) seen.
Proof.
  induction l as [|y l IH]; intros seen x; simpl; [easy|].
  destruct (existsb (eqb (key y)) seen) eqn:E.
  - intros H. apply IH in H as [H1 H2]. auto.
  - intros [<-|H].
    + split; [now left|]. now apply seen_not_In.
    + apply IH in H as [H1 H2]. split; [now right|].
      intros H3. apply H2. now right.
Qed.

Lemma first_occurrences_NoDup l :
  forall seen, NoDup (map key (fo seen l)).
Proof.
  induction l as [|x l IH]; intros seen; simpl.
  - constructor.
  - destruct (existsb (eqb (key x)) seen); [apply IH|].
    simpl. constructor; [|apply IH].
    intros H. apply in_map_iff in H as (y & Hk & Hy).
    apply first_occurrences_In in Hy as [_ Hy]. apply Hy. left. congruence.
Qed.

Lemma first_occurrences_keys l :
  forall seen x, In x l -> ~ In (key x) seen ->
                 In (key x) (map key (fo seen l)).
Proof.
  induction l as [|y l IH]; intros seen x; simpl; [easy|].
  intros [->|H] Hs.
  - apply seen_not_In in Hs. rewrite Hs. now left.
  - destruct (existsb (eqb (key y)) seen) eqn:E; [now apply IH|].
    destruct (eqb (key y) (key x)) eqn:E2.
    + apply eqb_eq in E2. left. assumption.
    + right. apply IH; [assumption|]. intros [H1|H1]; [|contradiction].
      apply eqb_eq in H1. congruence.
Qed.

(** The entry kept for a key is the first one of the input with that
    key. *)
Lemma first_occurrences_find l :
  forall seen k, ~ In k seen ->
    find (fun x => eqb (key x) k) (fo seen l) =
    find (fun x => eqb (key x) k) l.
Proof.
  induction l as [|y l IH]; intros seen k Hk; simpl; [reflexivity|].
  destruct (existsb (eqb (key y)) seen) eqn:E.
  - destruct (eqb (key y) k) eqn:E2.
    + apply eqb_eq in E2. apply seen_In in E. congruence.
    + now apply IH.
  - simpl. destruct (eqb (key y) k) eqn:E2; [reflexivity|].
    apply IH. intros [H|H]; [|contradiction].
    apply eqb_eq in H. congruence.
Qed.

End FirstOccurrencesFacts.

Lemma pystr_eqb_eq x y : pystr_eqb x y = true <-> x = y.
Proof.
  destruct x as [s|], y as [u|]; simpl; try easy.
  rewrite eqt_eq. split; congruence.
Qed.

Lemma subseq_In (A : Type) (l m : list A) x : subseq l m -> In x l -> In x m.
Proof.
  induction 1; simpl; intros H'; auto. destruct H'; auto.
Qed.



(** The three accumulation loops compute first occurrences. *)

Lemma matching_loop_spec patterns affs :
  forall matches,
    matching_loop patterns affs matches =
    matches ++ first_occurrences (fun s => s) eqt matches
                 (filter (any_pattern patterns) affs).
Proof.
  induction affs as [|aff rest IH]; intros matches; simpl.
  - now rewrite app_nil_r.
  - destruct (any_pattern patterns aff); [|apply IH]. simpl.
    unfold mem. destruct (existsb (eqt aff) matches); simpl; [apply IH|].
    rewrite IH, <- app_assoc. simpl. do 2 f_equal.
    apply first_occurrences_ext; [apply eqt_eq|].
    intros k. rewrite in_app_iff. simpl. tauto.
Qed.

Lemma matching_loop_02_spec patterns affs :
  forall matches,
    matching_loop_02 patterns affs matches =
    matches ++ filter (any_pattern patterns) affs.
Proof.
  induction affs as [|aff rest IH]; intros matches; simpl.
  - now rewrite app_nil_r.
  - destruct (any_pattern patterns aff); [|apply IH].
    rewrite IH, <- app_assoc. reflexivity.
Qed.

Lemma dedupe_loop_spec cs :
  forall seen unique_collabs,
    dedupe_loop cs seen unique_collabs =
    unique_collabs ++
    first_occurrences (fun c => pmid (article c)) pystr_eqb seen cs.
Proof.
  induction cs as [|c rest IH]; intros seen u; simpl.
  - now rewrite app_nil_r.
  - destruct (existsb (pystr_eqb (pmid (article c))) seen); simpl.
    + apply IH.
    + rewrite IH, <- app_assoc. reflexivity.
Qed.

(** ** Affiliation matching *)

(** C2.  The boolean affiliation check is true exactly when some pattern of
    the list, applied case-insensitively, matches a stretch of the lowercased
    text obtained by joining the affiliation strings with single blanks. *)
Theorem check_affiliation_match_iff (affs : list text) (patterns : list regex) :
  check_affiliation_match affs patterns = true <->
  exists p, In p patterns /\
            exists i j, Match true (lower (join (str " ") affs)) p i j.
Proof.
  unfold check_affiliation_match. rewrite any_pattern_spec.
  split; intros (p & Hp & H); exists p; (split; [assumption|]).
  - now apply search_spec in H.
  - now apply search_spec.
Qed.


(** C4.  On a list that repeats an affiliation string,
    [get_matching_affiliations] of [02_search_collaborations.py] returns the
    string twice, where the function of the same name in
    [03_search_with_names.py] returns it once. *)
Theorem get_matching_affiliations_02_repeats :
  let aff := str "DCTV, University of Padova" in
  get_matching_affiliations_02 [aff; aff] DCTV_PATTERNS_02 = [aff; aff] /\
  ~ NoDup (get_matching_affiliations_02 [aff; aff] DCTV_PATTERNS_02) /\
  get_matching_affiliations [aff; aff] DCTV_PATTERNS = [aff].
Proof.
  intros aff.
  assert (E : get_matching_affiliations_02 [aff; aff] DCTV_PATTERNS_02
              = [aff; aff]) by (vm_compute; reflexivity).
  split; [exact E|]. split; [|vm_compute; reflexivity].
  rewrite E. intros H. inversion H as [|x l Hx _]; subst.
  apply Hx. now left.
Qed.




(** ** Removal of duplicate records *)

(** C7.  After the removal of duplicates no PMID occurs twice, every PMID of
    the input still occurs, the list is the input with some entries left
    out (so first-occurrence order is kept), and the entry kept for a PMID
    is the first entry of the input with that PMID, derived fields
    included. *)
Theorem dedupe_first_wins (collaborations : list Collaboration) :
  let id := fun c => pmid (article c) in
  NoDup (map id (dedupe collaborations)) /\
  (forall c, In c collaborations ->
             In (id c) (map id (dedupe collaborations))) /\
  subseq (dedupe collaborations) collaborations /\
  (forall k, find (fun c => pystr_eqb (id c) k) (dedupe collaborations) =
             find (fun c => pystr_eqb (id c) k) collaborations).
Proof.
  intros id. unfold dedupe. rewrite dedupe_loop_spec. simpl.
  split; [|split; [|split]].
  - apply first_occurrences_NoDup. apply pystr_eqb_eq.
  - intros c Hc.
    apply (@first_occurrences_keys _ _ id pystr_eqb pystr_eqb_eq
             collaborations [] c Hc).
    intros [].
  - apply first_occurrences_subseq.
  - intros k.
    apply (@first_occurrences_find _ _ id pystr_eqb pystr_eqb_eq
             collaborations [] k).
    intros [].
Qed.

(** ** Ordering by year *)

Lemma ltb_asym s : forall u, ltb s u = true -> ltb u s = false.
Proof.
  induction s as [|c s IH]; intros [|d u]; simpl; try easy.
  intros H. apply orb_true_iff in H as [H|H].
  - apply Nat.ltb_lt in H. apply orb_false_iff. split.
    + apply Nat.ltb_ge. lia.
    + apply andb_false_iff. left. apply Nat.eqb_neq. lia.
  - apply andb_true_iff in H as [E H]. apply Nat.eqb_eq in E.
    apply IH in H. rewrite H, E, Nat.ltb_irrefl, andb_false_r. reflexivity.
Qed.

(** If [s] is below [v], any [u] is above [s] or below [v]. *)
Lemma ltb_cotrans s : forall u v,
  ltb s v = true -> ltb s u = true \/ ltb u v = true.
Proof.
  induction s as [|c s IH]; intros [|d u] [|e v]; simpl; try easy; auto.
  intros H. apply orb_true_iff in H as [H|H].
  - apply Nat.ltb_lt in H.
    destruct (Nat.lt_ge_cases (code c) (code d)) as [L|L].
    + left. apply orb_true_iff. left. now apply Nat.ltb_lt.
    + right. apply orb_true_iff. left. apply Nat.ltb_lt. lia.
  - apply andb_true_iff in H as [E H]. apply Nat.eqb_eq in E.
    destruct (Nat.lt_trichotomy (code c) (code d)) as [L|[L|L]].
    + left. apply orb_true_iff. left. now apply Nat.ltb_lt.
    + destruct (IH u v H) as [K|K].
      * left. apply orb_true_iff. right. rewrite K, L, Nat.eqb_refl.
        reflexivity.
      * right. apply orb_true_iff. right.
        rewrite K, <- L, E, Nat.eqb_refl. reflexivity.
    + right. apply orb_true_iff. left. apply Nat.ltb_lt. lia.
Qed.

Lemma leb_total s u : leb s u = false -> leb u s = true.
Proof.
  unfold leb. intros H. apply negb_false_iff in H.
  apply negb_true_iff. now apply ltb_asym.
Qed.

Lemma leb_trans s u v : leb s u = true -> leb u v = true -> leb s v = true.
Proof.
  unfold leb. rewrite !negb_true_iff. intros H1 H2.
  destruct (ltb v s) eqn:E; [|reflexivity].
  destruct (ltb_cotrans _ u _ E); congruence.
Qed.

Lemma leb_nil s : leb s [] = true -> s = [].
Proof. destruct s; [reflexivity | discriminate]. Qed.

Section SortFacts.

Variables (A : Type) (key : A -> text).

Let before := before key.

Lemma insert_desc_perm x l : Permutation (insert_desc key x l) (x :: l).
Proof.
  induction l as [|y l IH]; simpl; [reflexivity|].
  destruct (leb (key y) (key x)); [reflexivity|].
  rewrite IH. apply perm_swap.
Qed.

Lemma sort_desc_perm l : Permutation (sort_desc key l) l.
Proof.
  induction l as [|x l IH]; simpl; [reflexivity|].
  rewrite insert_desc_perm. now constructor.
Qed.

Lemma insert_desc_sorted x l :
  StronglySorted before l -> StronglySorted before (insert_desc key x l).
Proof.
  induction 1 as [|y l Hs IH Hall]; simpl.
  - repeat constructor.
  - destruct (leb (key y) (key x)) eqn:E.
    + constructor; [now constructor|].
      constructor; [exact E|].
      rewrite Forall_forall in Hall |- *. intros z Hz.
      unfold before, Spec.before in *. apply leb_trans with (key y); auto.
    + constructor; [assumption|].
      rewrite Forall_forall in Hall |- *. intros z Hz.
      apply (Permutation_in _ (insert_desc_perm x l)) in Hz.
      destruct Hz as [<-|Hz]; [|auto].
      unfold before, Spec.before. now apply leb_total.
Qed.

Lemma sort_desc_sorted l : StronglySorted before (sort_desc key l).
Proof.
  induction l as [|x l IH]; simpl; [constructor|].
  now apply insert_desc_sorted.
Qed.

(** In a descending list everything after an empty key has an empty
    key. *)
Lemma sorted_empty_last l :
  StronglySorted before l ->
  forall pre x post, l = pre ++ x :: post -> key x = [] ->
                     forall y, In y post -> key y = [].
Proof.
  induction 1 as [|z l Hs IH Hall]; intros pre x post E Hx y Hy.
  - destruct pre; discriminate.
  - destruct pre as [|w pre]; simpl in E; injection E as -> ->.
    + rewrite Forall_forall in Hall. specialize (Hall y Hy).
      unfold before, Spec.before in Hall. rewrite Hx in Hall. now apply leb_nil.
    + now apply (IH pre x post eq_refl Hx).
Qed.

End SortFacts.

(** C8.  The list produced by the sort is a rearrangement of the
    collaboration list in which every entry's year is at least, in the
    lexicographic order of strings, the year of every later entry; entries
    after one with an empty year have an empty year; and the years 2023,
    2019, empty, 2024 come out as 2024, 2023, 2019, empty. *)
Theorem sort_by_year_descending (collaborations : list Collaboration) :
  let sorted := sort_desc year_key collaborations in
  Permutation sorted collaborations /\
  StronglySorted (fun c d => leb (year_key d) (year_key c) = true) sorted /\
  (forall pre c post, sorted = pre ++ c :: post -> year_key c = [] ->
                      forall d, In d post -> year_key d = []) /\
  map year_key
    (sort_desc year_key
       [with_year "2023"; with_year "2019"; with_year EmptyString;
        with_year "2024"])
  = [str "2024"; str "2023"; str "2019"; []].
Proof.
  intros sorted. split; [|split; [|split]].
  - apply sort_desc_perm.
  - apply sort_desc_sorted.
  - apply sorted_empty_last. apply sort_desc_sorted.
  - reflexivity.
Qed.

(** ** The collaboration decision *)

Lemma qualifies_unfold dctv dsf a :
  qualifies dctv dsf a =
  check_affiliation_match (affiliations a) dctv &&
  check_affiliation_match (affiliations a) dsf && is_padova a.
Proof. reflexivity. Qed.

Lemma filter_02_spec articles :
  forall collaborations,
    map article02 (filter_02 articles collaborations) =
    map article02 collaborations ++
    filter (qualifies DCTV_PATTERNS_02 DSF_PATTERNS_02) articles.
Proof.
  induction articles as [|a rest IH]; intros cs; cbn [filter_02 filter].
  - now rewrite app_nil_r.
  - rewrite qualifies_unfold.
    destruct (check_affiliation_match (affiliations a) DCTV_PATTERNS_02);
      cbn [andb]; [|apply IH].
    destruct (check_affiliation_match (affiliations a) DSF_PATTERNS_02);
      cbn [andb]; [|apply IH].
    destruct (is_padova a); [|apply IH].
    rewrite IH, map_app, <- app_assoc. reflexivity.
Qed.

Lemma author_strings_ok l :
  (forall x, In x l -> x <> None) -> exists names, author_strings l = Ok names.
Proof.
  induction l as [|[s|] l IH]; intros H; simpl.
  - now exists [].
  - destruct IH as (names & ->); [intros x Hx; apply H; now right|].
    simpl. now exists (s :: names).
  - exfalso. apply (H None); [now left|reflexivity].
Qed.

Lemma filter_03_spec dctv_faculty dsf_faculty articles :
  (forall a, In a articles -> forall x, In x (authors a) -> x <> None) ->
  forall collaborations,
  exists cs,
    filter_03 dctv_faculty dsf_faculty articles collaborations = Ok cs /\
    map article cs =
    map article collaborations ++
    filter (qualifies DCTV_PATTERNS DSF_PATTERNS) articles.
Proof.
  induction articles as [|a rest IH]; intros H cs; cbn [filter_03 filter].
  - exists cs. now rewrite app_nil_r.
  - destruct (author_strings_ok (authors a)) as (names & ->);
      [apply H; now left|]. cbn [bind].
    assert (H' : forall b, In b rest ->
                           forall x, In x (authors b) -> x <> None)
      by (intros b Hb; apply H; now right).
    rewrite qualifies_unfold.
    destruct (check_affiliation_match (affiliations a) DCTV_PATTERNS &&
              check_affiliation_match (affiliations a) DSF_PATTERNS &&
              is_padova a); cbn [negb].
    + destruct (IH H' (cs ++
        [mkCollaboration a
           (get_matching_affiliations (affiliations a) DCTV_PATTERNS)
           (get_matching_affiliations (affiliations a) DSF_PATTERNS)
           (check_author_in_list names dctv_faculty)
           (check_author_in_list names dsf_faculty)])) as (r & -> & E).
      exists r. split; [reflexivity|].
      rewrite E, map_app, <- app_assoc. reflexivity.
    + apply IH, H'.
Qed.





(** ** The search client *)

Section SearchFacts.

Import Esearch.

Variable urlopen_read : text -> result text.
Variable decode : text -> result text.
Variable json_loads : text -> result json.
Variable int_of_str : text -> result Z.
Variable urlencode : list (text * param) -> text.

Let body := search_body urlopen_read decode json_loads int_of_str.
Let body_02 := search_body_02 urlopen_read decode json_loads.
Let run := search_pubmed urlopen_read decode json_loads int_of_str urlencode.
Let run_02 := search_pubmed_02 urlopen_read decode json_loads urlencode.

Lemma search_pubmed_failure query retmax e :
  body (search_url urlencode query retmax) = Raise e ->
  run query retmax = ((JArr [], 0%Z), [ErrorLine (str "  Error: ") e]).
Proof.
  unfold run, search_pubmed, body. now intros ->.
Qed.

Lemma search_pubmed_02_failure query retmax e :
  body_02 (search_url_02 urlencode query retmax) = Raise e ->
  run_02 query retmax = (JArr [], [ErrorLine (str "Error searching: ") e]).
Proof.
  unfold run_02, search_pubmed_02, body_02. now intros ->.
Qed.

End SearchFacts.

(** C9.  Whatever exception the statements under [try] raise -- a transport
    failure when the URL is opened or read, a failure to decode the body or
    to parse it as JSON, or any other -- [search_pubmed] prints one
    diagnostic line and returns the empty identifier list with count 0
    ([03_search_with_names.py]) or the empty identifier list
    ([02_search_collaborations.py], which returns no count).  The function
    returns a value in every case. *)
Theorem search_pubmed_degrades
    (urlopen_read decode : text -> result text)
    (json_loads : text -> result Esearch.json)
    (int_of_str : text -> result Z)
    (urlencode : list (text * Esearch.param) -> text)
    (query : text) (retmax : nat) :
  let url := Esearch.search_url urlencode query retmax in
  let url_02 := Esearch.search_url_02 urlencode query retmax in
  let run := Esearch.search_pubmed urlopen_read decode json_loads int_of_str
               urlencode query retmax in
  let run_02 := Esearch.search_pubmed_02 urlopen_read decode json_loads
                  urlencode query retmax in
  let failed e := ((Esearch.JArr [], 0%Z),
                   [Esearch.ErrorLine (str "  Error: ") e]) in
  let failed_02 e := (Esearch.JArr [],
                      [Esearch.ErrorLine (str "Error searching: ") e]) in
  (forall e,
     Esearch.search_body urlopen_read decode json_loads int_of_str url
       = Raise e -> run = failed e) /\
  (forall e, urlopen_read url = Raise e -> run = failed e) /\
  (forall raw e, urlopen_read url = Ok raw -> decode raw = Raise e ->
                 run = failed e) /\
  (forall raw body e, urlopen_read url = Ok raw -> decode raw = Ok body ->
                      json_loads body = Raise e -> run = failed e) /\
  (forall e,
     Esearch.search_body_02 urlopen_read decode json_loads url_02
       = Raise e -> run_02 = failed_02 e) /\
  (forall e, urlopen_read url_02 = Raise e -> run_02 = failed_02 e) /\
  (forall raw e, urlopen_read url_02 = Ok raw -> decode raw = Raise e ->
                 run_02 = failed_02 e) /\
  (forall raw body e, urlopen_read url_02 = Ok raw -> decode raw = Ok body ->
                      json_loads body = Raise e -> run_02 = failed_02 e).
Proof.
  intros url url_02 run run_02 failed failed_02.
  assert (F : forall e,
             Esearch.search_body urlopen_read decode json_loads int_of_str url
               = Raise e -> run = failed e)
    by (intros e; apply search_pubmed_failure).
  assert (G : forall e,
             Esearch.search_body_02 urlopen_read decode json_loads url_02
               = Raise e -> run_02 = failed_02 e)
    by (intros e; apply search_pubmed_02_failure).
  repeat split; auto.
  - intros e H. apply F. unfold Esearch.search_body. now rewrite H.
  - intros raw e H1 H2. apply F. unfold Esearch.search_body.
    rewrite H1. cbn [bind]. now rewrite H2.
  - intros raw body e H1 H2 H3. apply F. unfold Esearch.search_body.
    rewrite H1. cbn [bind]. rewrite H2. cbn [bind]. now rewrite H3.
  - intros e H. apply G. unfold Esearch.search_body_02. now rewrite H.
  - intros raw e H1 H2. apply G. unfold Esearch.search_body_02.
    rewrite H1. cbn [bind]. now rewrite H2.
  - intros raw body e H1 H2 H3. apply G. unfold Esearch.search_body_02.
    rewrite H1. cbn [bind]. rewrite H2. cbn [bind]. now rewrite H3.
Qed.

Lemma search_pubmed_degrades_witness :
  Samples.offline
    (Esearch.search_url Samples.no_encode (str "Padova[Affiliation]") 300)
    = Raise URLError /\
  Esearch.search_pubmed Samples.offline Samples.no_decode Samples.no_json
    Samples.no_int Samples.no_encode (str "Padova[Affiliation]") 300
  = ((Esearch.JArr [], 0%Z), [Esearch.ErrorLine (str "  Error: ") URLError]).
Proof.
  split; [reflexivity|].
  apply (proj1 (proj2 (search_pubmed_degrades Samples.offline
                         Samples.no_decode Samples.no_json Samples.no_int
                         Samples.no_encode (str "Padova[Affiliation]") 300))).
  reflexivity.
Defined.

(** ** The affiliation list of a parsed record *)

Lemma collect_new_spec els :
  forall affs, Parser.collect_new els affs = affs ++ nonempty_texts els.
Proof.
  induction els as [|e rest IH]; intros affs; simpl.
  - now rewrite app_nil_r.
  - destruct (etext e) as [[|c u]|]; simpl; try apply IH.
    rewrite IH, <- app_assoc. reflexivity.
Qed.

Lemma collect_old_spec els :
  forall affs,
    Parser.collect_old els affs =
    affs ++ first_occurrences (fun u => u) eqt affs (nonempty_texts els).
Proof.
  induction els as [|e rest IH]; intros affs; cbn -[eqt].
  - now rewrite app_nil_r.
  - destruct (etext e) as [[|c u]|]; cbn -[eqt]; try apply IH.
    unfold mem. destruct (existsb (eqt (c :: u)) affs); cbn -[eqt];
      [apply IH|].
    rewrite IH, <- app_assoc. cbn -[eqt]. do 2 f_equal.
    apply first_occurrences_ext; [apply eqt_eq|].
    intros k. rewrite in_app_iff. simpl. tauto.
Qed.

Lemma extract_article_affiliations e a :
  Parser.extract_article e = Ok a -> affiliations a = Parser.get_affiliations e.
Proof.
  unfold Parser.extract_article.
  destruct (Parser.get_authors _ _); simpl; [|discriminate].
  intros H. injection H as <-. reflexivity.
Qed.

(** C6, as stated, fails: two authors with the same affiliation text give a
    list in which that text occurs twice. *)
Lemma shared_affiliation_listed_twice :
  Parser.parse_xml XmlText.fromstring (Samples.document Samples.record_xml)
    = Ok [Samples.parsed_record] /\
  Parser.parse_articles XmlText.fromstring (Samples.document Samples.record_xml)
    = Ok [Samples.parsed_record] /\
  affiliations Samples.parsed_record = [Samples.shared_aff; Samples.shared_aff] /\
  ~ NoDup (affiliations Samples.parsed_record).
Proof.
  split; [vm_compute; reflexivity|].
  split; [vm_compute; reflexivity|].
  split; [reflexivity|].
  simpl. intros H. inversion H as [|x l Hx _]; subst. apply Hx. now left.
Qed.

(** C6 (amended).  The affiliation list of a record is the list of all its
    non-empty per-author affiliation texts in document order, repeats
    included, followed by the other non-empty affiliation texts, each once,
    in the order of their first occurrence.  Every affiliation text of the
    record is in the list, and the list is free of repeats whenever the
    per-author texts are. *)
Theorem affiliations_of_record (record : Element) :
  let news := per_author_texts record in
  let olds := first_occurrences (fun u => u) eqt news
                (all_affiliation_texts record) in
  Parser.get_affiliations record = news ++ olds /\
  (forall a, Parser.extract_article record = Ok a ->
             affiliations a = news ++ olds) /\
  NoDup olds /\
  (forall s, In s olds -> ~ In s news) /\
  (forall s, In s (all_affiliation_texts record) ->
             In s (Parser.get_affiliations record)) /\
  (NoDup news -> NoDup (Parser.get_affiliations record)).
Proof.
  intros news olds.
  assert (E : Parser.get_affiliations record = news ++ olds).
  { unfold Parser.get_affiliations.
    rewrite collect_old_spec, collect_new_spec. reflexivity. }
  assert (N : NoDup olds).
  { unfold olds. rewrite <- (map_id (first_occurrences _ _ _ _)).
    apply first_occurrences_NoDup. apply eqt_eq. }
  assert (D : forall s, In s olds -> ~ In s news).
  { intros s H. now apply first_occurrences_In in H as [_ H];
      [|apply eqt_eq]. }
  split; [exact E|]. split; [|split; [exact N|split; [exact D|split]]].
  - intros a H. apply extract_article_affiliations in H. congruence.
  - intros s H. rewrite E. apply in_or_app.
    destruct (mem s news) eqn:M.
    + left. now apply mem_In.
    + right. apply mem_false in M.
      pose proof (@first_occurrences_keys text text (fun u => u) eqt eqt_eq
                    (all_affiliation_texts record) news s H M) as K.
      now rewrite map_id in K.
  - intros H. rewrite E. apply NoDup_app; try assumption.
    intros s H1 H2. now apply (D s).
Qed.

Lemma affiliations_of_record_witness :
  NoDup (per_author_texts Samples.author_element) /\
  NoDup (Parser.get_affiliations Samples.author_element).
Proof.
  assert (H : NoDup (per_author_texts Samples.author_element)).
  { vm_compute. repeat constructor; simpl; intuition discriminate. }
  split; [exact H|].
  exact (proj2 (proj2 (proj2 (proj2 (proj2
           (affiliations_of_record Samples.author_element))))) H).
Defined.

(** ** Malformed documents *)

Lemma author_name_exn el e :
  Parser.author_name el = Raise e -> e = TypeError.
Proof.
  unfold Parser.author_name.
  destruct (find_child _ el) as [ln|]; [|discriminate].
  destruct (find_child _ el) as [fn|]; [|discriminate].
  destruct (etext ln) as [l|]; [destruct (etext fn) as [f|]|];
    congruence.
Qed.

Lemma get_authors_exn els :
  forall authors e, Parser.get_authors els authors = Raise e -> e = TypeError.
Proof.
  induction els as [|el rest IH]; intros authors e;
    cbn [Parser.get_authors]; [discriminate|].
  destruct (Parser.author_name el) as [[n|]|x] eqn:N; cbn [bind];
    try apply IH.
  intros H. injection H as <-. now apply author_name_exn in N.
Qed.

Lemma extract_article_exn el e :
  Parser.extract_article el = Raise e -> e = TypeError.
Proof.
  unfold Parser.extract_article.
  destruct (Parser.get_authors _ _) as [a|x] eqn:G; cbn [bind];
    [discriminate|].
  intros H. injection H as <-. now apply get_authors_exn in G.
Qed.

Lemma extract_all_exn els :
  forall articles e, Parser.extract_all els articles = Raise e -> e = TypeError.
Proof.
  induction els as [|el rest IH]; intros articles e;
    cbn [Parser.extract_all]; [discriminate|].
  destruct (Parser.extract_article el) as [a|x] eqn:X; cbn [bind].
  - apply IH.
  - intros H. injection H as <-. now apply extract_article_exn in X.
Qed.

Section ParseFacts.

Variable fromstring : text -> option Element.

Lemma parse_chunks_exn chunks :
  forall articles e,
    Parser.parse_chunks fromstring chunks articles = Raise e -> e = TypeError.
Proof.
  induction chunks as [|c rest IH]; intros articles e;
    cbn [Parser.parse_chunks]; [discriminate|].
  destruct (Parser.is_blank c); [apply IH|].
  destruct (fromstring (Parser.restore c)) as [root|]; [|apply IH].
  destruct (Parser.extract_all _ articles) as [l|x] eqn:X; cbn [bind].
  - apply IH.
  - intros H. injection H as <-. now apply extract_all_exn in X.
Qed.

(** A chunk that fails to parse leaves no trace. *)
Lemma parse_chunks_skip before bad after :
  fromstring (Parser.restore bad) = None ->
  forall articles,
    Parser.parse_chunks fromstring (before ++ bad :: after) articles =
    Parser.parse_chunks fromstring (before ++ after) articles.
Proof.
  intros Hbad. induction before as [|c rest IH]; intros articles;
    cbn [Parser.parse_chunks app].
  - rewrite Hbad. now destruct (Parser.is_blank bad).
  - destruct (Parser.is_blank c); [apply IH|].
    destruct (fromstring (Parser.restore c)) as [root|]; [|apply IH].
    destruct (Parser.extract_all _ articles); cbn [bind];
      [apply IH|reflexivity].
Qed.

End ParseFacts.

(** C5, as stated, fails: a truncated record makes the document that holds
    it unparseable, and the whole record next to it is lost with it. *)
Lemma truncated_record_discards_its_document :
  Parser.parse_articles XmlText.fromstring Samples.mixed_document = Ok [] /\
  Parser.parse_xml XmlText.fromstring Samples.mixed_document = Ok [].
Proof. split; vm_compute; reflexivity. Qed.

(** C5 (amended).  Parsing proceeds document by document.  In
    [parse_articles] a piece of the payload that fails to parse is skipped:
    the result is that of the payload's other pieces, so the articles of the
    well-formed documents are still returned; a whole document followed by a
    truncated one yields the one article of the first.  In [parse_xml] the
    payload is one document and a payload that fails to parse yields the
    empty list.  Neither function lets [ParseError] reach its caller. *)
Theorem parse_skips_malformed_documents
    (fromstring : text -> option Element) :
  (forall xml_data before bad after,
     split_on Parser.xml_decl xml_data = before ++ bad :: after ->
     fromstring (Parser.restore bad) = None ->
     Parser.parse_articles fromstring xml_data =
     Parser.parse_chunks fromstring (before ++ after) []) /\
  (forall xml_data,
     fromstring xml_data = None -> Parser.parse_xml fromstring xml_data = Ok []) /\
  (forall xml_data,
     Parser.parse_articles fromstring xml_data <> Raise ParseError /\
     Parser.parse_xml fromstring xml_data <> Raise ParseError) /\
  Parser.parse_articles XmlText.fromstring Samples.two_documents
    = Ok [Samples.parsed_record].
Proof.
  split; [|split; [|split]].
  - intros xml_data before bad after E H.
    unfold Parser.parse_articles. rewrite E. now apply parse_chunks_skip.
  - intros xml_data H. unfold Parser.parse_xml. now rewrite H.
  - intros xml_data. split; intros H.
    + apply parse_chunks_exn in H. discriminate.
    + unfold Parser.parse_xml in H.
      destruct (fromstring xml_data); [|discriminate].
      apply extract_all_exn in H. discriminate.
  - vm_compute. reflexivity.
Qed.

Lemma parse_skips_malformed_documents_witness :
  let good := str "?><PubmedArticleSet>" ++ Samples.record_xml ++
              str "</PubmedArticleSet>" in
  let bad := str "?><PubmedArticleSet>" ++ Samples.truncated_record_xml in
  split_on Parser.xml_decl Samples.two_documents = [[]; good] ++ bad :: [] /\
  XmlText.fromstring (Parser.restore bad) = None /\
  Parser.parse_articles XmlText.fromstring Samples.two_documents =
  Parser.parse_chunks XmlText.fromstring ([[]; good] ++ []) [].
Proof.
  intros good bad.
  assert (H1 : split_on Parser.xml_decl Samples.two_documents
               = [[]; good] ++ bad :: []) by (vm_compute; reflexivity).
  assert (H2 : XmlText.fromstring (Parser.restore bad) = None)
    by (vm_compute; reflexivity).
  split; [exact H1|]. split; [exact H2|].
  exact (proj1 (parse_skips_malformed_documents XmlText.fromstring)
           Samples.two_documents [[]; good] bad [] H1 H2).
Defined.

(** ** Author reconciliation *)

Lemma lstrip_split s : split_ws (lstrip s) = split_ws s.
Proof.
  unfold split_ws. induction s as [|c s IH]; simpl; [reflexivity|].
  destruct (is_space c) eqn:C; [assumption|].
  simpl. now rewrite C.
Qed.

Lemma lstrip_decompose s :
  exists ws, forallb is_space ws = true /\ s = ws ++ lstrip s.
Proof.
  induction s as [|c s (ws & Hws & E)]; simpl.
  - now exists [].
  - destruct (is_space c) eqn:C.
    + exists (c :: ws). simpl. rewrite C, Hws. split; [reflexivity|].
      now rewrite <- E.
    + now exists [].
Qed.

Lemma split_ws_aux_spaces ws :
  forallb is_space ws = true ->
  forall cur, split_ws_aux cur ws = split_ws_aux cur [].
Proof.
  induction ws as [|c ws IH]; simpl; intros H cur; [reflexivity|].
  apply andb_true_iff in H as [C H]. rewrite C.
  destruct cur; rewrite (IH H); reflexivity.
Qed.

Lemma split_ws_aux_app_spaces ws s :
  forallb is_space ws = true ->
  forall cur, split_ws_aux cur (s ++ ws) = split_ws_aux cur s.
Proof.
  intros H. induction s as [|c s IH]; intros cur; simpl.
  - now apply split_ws_aux_spaces.
  - destruct (is_space c); [destruct cur|]; now rewrite IH.
Qed.

Lemma rstrip_split s : split_ws (rstrip s) = split_ws s.
Proof.
  unfold rstrip. destruct (lstrip_decompose (rev s)) as (ws & Hws & E).
  assert (E' : s = rev (lstrip (rev s)) ++ rev ws).
  { rewrite <- rev_app_distr, <- E. symmetry. apply rev_involutive. }
  rewrite E' at 2. unfold split_ws. symmetry.
  apply split_ws_aux_app_spaces.
  apply forallb_forall. intros c Hc. apply in_rev in Hc.
  rewrite forallb_forall in Hws. now apply Hws.
Qed.

Lemma strip_split s : split_ws (strip s) = split_ws s.
Proof. unfold strip. now rewrite rstrip_split, lstrip_split. Qed.

Lemma first_hit_spec author_lower roster :
  first_hit author_lower roster = existsb (name_match author_lower) roster.
Proof.
  induction roster as [|f rest IH]; simpl; [reflexivity|].
  destruct (name_match author_lower f); [reflexivity|assumption].
Qed.

Lemma author_loop_spec roster authors :
  forall matches,
    author_loop roster authors matches =
    matches ++
    filter (fun a => existsb (name_match (strip (lower a))) roster) authors.
Proof.
  induction authors as [|a rest IH]; intros matches;
    cbn [author_loop filter].
  - now rewrite app_nil_r.
  - rewrite first_hit_spec.
    destruct (existsb (name_match (strip (lower a))) roster); [|apply IH].
    rewrite IH, <- app_assoc. reflexivity.
Qed.

Lemma name_match_spec author faculty :
  name_match (strip (lower author)) faculty = true <->
  2 <= List.length (tokens author) /\
  2 <= List.length (tokens faculty) /\
  same_person author faculty.
Proof.
  unfold name_match, same_person, lastname_of, firstname_of, tokens.
  rewrite !strip_split.
  destruct (List.length (split_ws (lower faculty)) <? 2) eqn:F.
  - apply Nat.ltb_lt in F. split; [discriminate|]. lia.
  - apply Nat.ltb_ge in F.
    destruct (List.length (split_ws (lower author)) <? 2) eqn:A.
    + apply Nat.ltb_lt in A. split; [discriminate|]. lia.
    + apply Nat.ltb_ge in A.
      rewrite !andb_true_iff, !eqt_eq, !Nat.leb_le. unfold prefix. tauto.
Qed.



(** ** The pattern lists are those of the scripts *)

Example DCTV_PATTERNS_text :
  map show DCTV_PATTERNS =
  map str
    [ "cardiac.*thoracic.*vascular.*sciences.*public.*health";
      "cardiac.*thoracic.*vascular.*public.*health";
      "cardio.*thoraco.*vascular.*public.*health";
      "cardiovascular.*public.*health.*padov";
      "cardiovascular.*public.*health.*padua";
      "cardiac.*thoracic.*vascular.*sciences.*padov";
      "cardiac.*thoracic.*vascular.*sciences.*padua";
      "cardiac,?\s*thoracic,?\s*(and\s+)?vascular.*padov";
      "cardiac,?\s*thoracic,?\s*(and\s+)?vascular.*padua";
      "legal\s+medicine.*padov";
      "legal\s+medicine.*padua";
      "medicina\s+legale.*padov";
      "cardio.*toraco.*vascolar.*sanit";
      "scienze.*cardio.*toraco.*vascolar";
      "\bdctv\b" ]%string.
Proof. reflexivity. Qed.

Example DSF_PATTERNS_text :
  map show DSF_PATTERNS =
  map str
    [ "pharmaceutical.*pharmacological.*sciences.*padov";
      "pharmaceutical.*pharmacological.*sciences.*padua";
      "pharmaceutical\s+(&|and)\s+pharmacological.*padov";
      "pharmaceutical\s+(&|and)\s+pharmacological.*padua";
      "scienze.*del.*farmaco.*padov";
      "scienze.*del.*farmaco.*padua" ]%string.
Proof. reflexivity. Qed.

Example DCTV_PATTERNS_02_text :
  map show DCTV_PATTERNS_02 =
  map str
    [ "cardiac.*thoracic.*vascular.*public.*health";
      "cardio.*thoraco.*vascular.*public.*health";
      "cardiothoracic.*vascular.*public.*health";
      "cardio.*toraco.*vascolar.*sanit";
      "scienze.*cardio.*toraco.*vascolar";
      "dctv" ]%string.
Proof. reflexivity. Qed.

Example DSF_PATTERNS_02_text :
  map show DSF_PATTERNS_02 =
  map str
    [ "pharmaceutical.*pharmacological.*sciences";
      "pharmaceutical.*sciences.*padov";
      "pharmacological.*sciences.*padov";
      "scienze.*del.*farmaco" ]%string.
Proof. reflexivity. Qed.

Example patterns_well_formed :
  forallb well_formed
    (DCTV_PATTERNS ++ DSF_PATTERNS ++ DCTV_PATTERNS_02 ++ DSF_PATTERNS_02) = true /\
  forallb anchor_free
    (DCTV_PATTERNS ++ DSF_PATTERNS ++ DCTV_PATTERNS_02 ++ DSF_PATTERNS_02) = true.
Proof. split; reflexivity. Qed.

(** A whole run of the filter of [03_search_with_names.py] on two articles:
    one with both departments in Padova, one with a single department. *)
Example filter_03_run :
  let single :=
    mkArticle (Some (str "102")) (Some (str "A DCTV study")) (Some (str "J"))
      (str "2021") [Some (str "Basso Cristina")] [Samples.dctv_aff] in
  rmap (map article)
    (filter_03 DCTV_FACULTY DSF_FACULTY [Samples.joint_article; single] [])
  = Ok [Samples.joint_article] /\
  rmap (map dctv_authors)
    (filter_03 DCTV_FACULTY DSF_FACULTY [Samples.joint_article; single] [])
  = Ok [[str "Basso Cristina"]].
Proof. split; vm_compute; reflexivity. Qed.

(** * Further properties of the scripts *)

(** ** Batching of identifiers *)

Lemma chunks_concat (A : Type) (size : nat) :
  forall q (l : list A),
    List.length l <= q * size ->
    List.concat (map (fun k => firstn size (skipn (k * size) l)) (seq 0 q)) = l.
Proof.
  induction q as [|q IH]; intros l H.
  - simpl in H. destruct l; [reflexivity|simpl in H; lia].
  - cbn [seq map List.concat]. rewrite <- seq_shift, map_map.
    rewrite (map_ext _ (fun k => firstn size (skipn (k * size) (skipn size l)))).
    + rewrite IH.
      * apply firstn_skipn.
      * rewrite length_skipn. simpl in H. lia.
    + intros k. rewrite skipn_skipn. f_equal. f_equal. lia.
Qed.

Lemma batches_as_chunks size (pmids : list text) :
  Fetch.batches size pmids =
  map (fun k => firstn size (skipn (k * size) pmids))
      (seq 0 ((List.length pmids + size - 1) / size)).
Proof.
  unfold Fetch.batches, Fetch.range_step, Fetch.slice. rewrite map_map.
  apply map_ext. intros k. do 2 f_equal. lia.
Qed.

Lemma batches_partition size (pmids : list text) :
  0 < size ->
  List.concat (Fetch.batches size pmids) = pmids /\
  Forall (fun b => 1 <= List.length b <= size) (Fetch.batches size pmids) /\
  List.length (Fetch.batches size pmids)
    = (List.length pmids + size - 1) / size.
Proof.
  intros Hs. rewrite batches_as_chunks.
  set (n := List.length pmids). set (q := (n + size - 1) / size).
  assert (Hq : size * q <= n + size - 1) by apply Nat.Div0.mul_div_le.
  assert (Hr : n + size - 1 < size * S q)
    by (apply Nat.mul_succ_div_gt; lia).
  split; [|split].
  - apply chunks_concat. fold n. nia.
  - apply Forall_forall. intros b Hb.
    apply in_map_iff in Hb as (k & <- & Hk). apply in_seq in Hk.
    rewrite length_firstn, length_skipn. fold n.
    assert (k * size + size <= size * q) by nia. lia.
  - now rewrite length_map, length_seq.
Qed.

(** The batches of either script cut the identifier list into consecutive
    pieces: put end to end they give the list back, none is empty, none
    exceeds the batch size (50 in [03_search_with_names.py], 100 in
    [02_search_collaborations.py]), and their number is the list length
    divided by the batch size, rounded up. *)
Theorem fetch_batches_partition (pmids : list text) :
  (List.concat (Fetch.batches 50 pmids) = pmids /\
   Forall (fun b => 1 <= List.length b <= 50) (Fetch.batches 50 pmids) /\
   List.length (Fetch.batches 50 pmids) = (List.length pmids + 49) / 50) /\
  (List.concat (Fetch.batches 100 pmids) = pmids /\
   Forall (fun b => 1 <= List.length b <= 100) (Fetch.batches 100 pmids) /\
   List.length (Fetch.batches 100 pmids) = (List.length pmids + 99) / 100).
Proof.
  split.
  - destruct (@batches_partition 50 pmids) as (H1 & H2 & H3); [lia|].
    rewrite H3. repeat split; try assumption. f_equal. lia.
  - destruct (@batches_partition 100 pmids) as (H1 & H2 & H3); [lia|].
    rewrite H3. repeat split; try assumption. f_equal. lia.
Qed.

(** ** Fetching *)

Section FetchFacts.

Variable urlopen_read : text -> result text.
Variable decode : text -> result text.
Variable urlencode : list (text * Esearch.param) -> text.
Variable fromstring : text -> option Element.

Lemma fetch_loop_spec todo :
  forall articles log,
    Fetch.fetch_loop urlopen_read decode urlencode fromstring todo articles log =
    (articles ++
     flat_map (fun b =>
                 match Fetch.fetch_batch urlopen_read decode urlencode
                         fromstring b with
                 | Ok found => found
                 | Raise _ => []
                 end) todo,
     log ++
     flat_map (fun b =>
                 match Fetch.fetch_batch urlopen_read decode urlencode
                         fromstring b with
                 | Ok _ => []
                 | Raise e => [Esearch.ErrorLine (str "  Fetch error: ") e]
                 end) todo).
Proof.
  induction todo as [|b rest IH]; intros articles log;
    cbn [Fetch.fetch_loop flat_map].
  - now rewrite !app_nil_r.
  - destruct (Fetch.fetch_batch _ _ _ _ b) as [found|e]; rewrite IH.
    + now rewrite <- app_assoc.
    + now rewrite <- app_assoc.
Qed.

Lemma fetch_loop_02_spec todo :
  forall all_xml log,
    Fetch.fetch_loop_02 urlopen_read decode urlencode todo all_xml log =
    (all_xml ++
     flat_map (fun b =>
                 match Fetch.fetch_text urlopen_read decode urlencode b with
                 | Ok body => body
                 | Raise _ => []
                 end) todo,
     log ++
     flat_map (fun b =>
                 match Fetch.fetch_text urlopen_read decode urlencode b with
                 | Ok _ => []
                 | Raise e =>
                     [Esearch.ErrorLine (str "Error fetching batch: ") e]
                 end) todo).
Proof.
  induction todo as [|b rest IH]; intros all_xml log;
    cbn [Fetch.fetch_loop_02 flat_map].
  - now rewrite !app_nil_r.
  - destruct (Fetch.fetch_text _ _ _ b) as [body|e]; rewrite IH.
    + now rewrite <- app_assoc.
    + now rewrite <- app_assoc.
Qed.

End FetchFacts.

(** [fetch_articles] of [03_search_with_names.py] returns the articles of
    the batches whose request, decoding and parsing all succeed, batch after
    batch in order; a batch on which any of them raises, the parser
    included, contributes no article and one diagnostic line, and the later
    batches are still fetched.  On the empty list nothing is requested. *)
Theorem fetch_articles_skips_failed_batches
    (urlopen_read decode : text -> result text)
    (urlencode : list (text * Esearch.param) -> text)
    (fromstring : text -> option Element) (pmids : list text) :
  let attempt := Fetch.fetch_batch urlopen_read decode urlencode fromstring in
  Fetch.fetch_articles urlopen_read decode urlencode fromstring pmids =
  (flat_map (fun b => match attempt b with Ok found => found | Raise _ => [] end)
     (Fetch.batches 50 pmids),
   flat_map (fun b => match attempt b with
                      | Ok _ => []
                      | Raise e => [Esearch.ErrorLine (str "  Fetch error: ") e]
                      end)
     (Fetch.batches 50 pmids)).
Proof.
  intros attempt. unfold Fetch.fetch_articles.
  destruct pmids as [|x l]; [reflexivity|].
  now rewrite fetch_loop_spec.
Qed.

(** [fetch_articles] of [02_search_collaborations.py] returns the bodies of
    the batches that could be read and decoded, end to end in batch order; a
    failed batch adds nothing to the text and one diagnostic line. *)
Theorem fetch_articles_02_concatenates
    (urlopen_read decode : text -> result text)
    (urlencode : list (text * Esearch.param) -> text) (pmids : list text) :
  let attempt := Fetch.fetch_text urlopen_read decode urlencode in
  Fetch.fetch_articles_02 urlopen_read decode urlencode pmids =
  (flat_map (fun b => match attempt b with Ok body => body | Raise _ => [] end)
     (Fetch.batches 100 pmids),
   flat_map (fun b => match attempt b with
                      | Ok _ => []
                      | Raise e =>
                          [Esearch.ErrorLine (str "Error fetching batch: ") e]
                      end)
     (Fetch.batches 100 pmids)).
Proof.
  intros attempt. unfold Fetch.fetch_articles_02.
  destruct pmids as [|x l]; [reflexivity|].
  now rewrite fetch_loop_02_spec.
Qed.

(** ** Splitting a payload at the XML declaration *)

Lemma startswith_app p : forall u v,
  startswith p (u ++ v) = true ->
  startswith p u = true \/
  exists w, w <> [] /\ p = u ++ w /\ startswith w v = true.
Proof.
  induction p as [|c p IH]; intros u v H.
  - left. reflexivity.
  - destruct u as [|d u].
    + right. exists (c :: p). repeat split; [discriminate|exact H].
    + simpl in H. apply andb_true_iff in H as [Hc H].
      destruct (IH u v H) as [K|(w & Hw & E & K)].
      * left. simpl. now rewrite Hc, K.
      * right. exists w. apply eqc_eq in Hc. subst. auto.
Qed.

Section SplitFacts.

Variables (c : ascii) (sep' : text).
Hypothesis head_once : ~ In c sep'.

Let sep := c :: sep'.

Lemma split_no_occurrence s :
  forall cur, contains sep s = false ->
              split_on_aux sep 0 cur s = [rev cur ++ s].
Proof.
  induction s as [|d s IH]; intros cur H.
  - simpl. now rewrite app_nil_r.
  - cbn [contains] in H. apply orb_false_iff in H as [H1 H2].
    cbn [split_on_aux]. rewrite H1, (IH _ H2). simpl.
    now rewrite <- app_assoc.
Qed.

Lemma split_skip_eq u s cur :
  split_on_aux sep (List.length u) cur (u ++ s) = split_on_aux sep 0 cur s.
Proof.
  revert s cur. induction u as [|d u IH]; intros s cur; simpl;
    [reflexivity|apply IH].
Qed.

Lemma startswith_refl_app p s : startswith p (p ++ s) = true.
Proof.
  induction p as [|d p IH]; simpl; [reflexivity|].
  rewrite IH. unfold eqc. now rewrite Ascii.eqb_refl.
Qed.

Lemma split_at_head s cur :
  split_on_aux sep 0 cur (sep ++ s) = rev cur :: split_on_aux sep 0 [] s.
Proof.
  unfold sep at 2. cbn [app split_on_aux].
  change (c :: sep' ++ s) with (sep ++ s). rewrite startswith_refl_app.
  f_equal.
  replace (List.length sep - 1) with (List.length sep')
    by (unfold sep; simpl; lia).
  apply split_skip_eq.
Qed.

Lemma no_match_across r s :
  r <> [] -> startswith sep r = false ->
  startswith sep (r ++ sep ++ s) = false.
Proof.
  intros Hr H. destruct (startswith sep (r ++ sep ++ s)) eqn:E;
    [|reflexivity].
  apply startswith_app in E as [E|(w & Hw & Ew & K)]; [congruence|].
  exfalso. destruct r as [|d r]; [congruence|].
  destruct w as [|x w]; [congruence|].
  unfold sep in Ew, K. simpl in K.
  apply andb_true_iff in K as [K _]. apply eqc_eq in K. subst x.
  simpl in Ew. injection Ew as _ Ew. apply head_once. rewrite Ew.
  apply in_or_app. right. now left.
Qed.

Lemma split_piece r :
  forall s cur, contains sep r = false ->
    split_on_aux sep 0 cur (r ++ sep ++ s) =
    (rev cur ++ r) :: split_on_aux sep 0 [] s.
Proof.
  induction r as [|d r IH]; intros s cur H.
  - simpl. rewrite app_nil_r. apply split_at_head.
  - cbn [contains] in H. apply orb_false_iff in H as [H1 H2].
    assert (N : startswith sep ((d :: r) ++ sep ++ s) = false)
      by (apply no_match_across; [discriminate|assumption]).
    change ((d :: r) ++ sep ++ s) with (d :: (r ++ sep ++ s)) in *.
    cbn [split_on_aux]. rewrite N, (IH _ _ H2). simpl.
    now rewrite <- app_assoc.
Qed.

Lemma split_pieces rs :
  forall r, contains sep r = false ->
    (forall x, In x rs -> contains sep x = false) ->
    split_on_aux sep 0 [] (r ++ List.concat (map (app sep) rs)) = r :: rs.
Proof.
  induction rs as [|r2 rs IH]; intros r Hr H.
  - simpl. rewrite app_nil_r. now apply split_no_occurrence.
  - cbn [map List.concat]. rewrite <- app_assoc, split_piece by assumption.
    simpl. f_equal. apply IH.
    + apply H. now left.
    + intros x Hx. apply H. now right.
Qed.

End SplitFacts.

Lemma bind_ok (A : Type) (m : result A) : (x <- m ;; Ok x) = m.
Proof. now destruct m. Qed.

Lemma extract_all_acc els :
  forall articles,
    Parser.extract_all els articles =
    (found <- Parser.extract_all els [] ;; Ok (articles ++ found)).
Proof.
  induction els as [|el rest IH]; intros articles;
    cbn [Parser.extract_all bind].
  - now rewrite app_nil_r.
  - destruct (Parser.extract_article el) as [a|e]; cbn [bind];
      [|reflexivity].
    rewrite IH, (IH ([] ++ [a])).
    destruct (Parser.extract_all rest []); cbn [bind]; [|reflexivity].
    now rewrite <- app_assoc.
Qed.

Lemma parse_chunks_docs fromstring rs :
  (forall r, In r rs ->
             Parser.is_blank r = false /\
             startswith (str "<?xml") r = false) ->
  forall articles,
    Parser.parse_chunks fromstring rs articles =
    (more <- parse_each fromstring (map (app Parser.xml_decl) rs) ;;
     Ok (articles ++ more)).
Proof.
  induction rs as [|r rs IH]; intros H articles;
    cbn [Parser.parse_chunks map parse_each bind].
  - now rewrite app_nil_r.
  - destruct (H r (or_introl eq_refl)) as [B S].
    rewrite B. unfold Parser.restore. rewrite S. cbn [negb].
    unfold Parser.parse_xml.
    destruct (fromstring (Parser.xml_decl ++ r)) as [root|].
    + rewrite extract_all_acc.
      destruct (Parser.extract_all _ []) as [found|e]; cbn [bind];
        [|reflexivity].
      rewrite IH by (intros x Hx; apply H; now right).
      destruct (parse_each fromstring _); cbn [bind]; [|reflexivity].
      now rewrite <- app_assoc.
    + cbn [bind]. rewrite IH by (intros x Hx; apply H; now right).
      destruct (parse_each fromstring _); reflexivity.
Qed.

Lemma xml_decl_head_once : ~ In "<"%char (tl Parser.xml_decl).
Proof. vm_compute. intuition discriminate. Qed.

(** A payload made of documents put end to end, each introduced by the XML
    declaration and otherwise free of it, is parsed by [parse_articles] as
    the documents would be one by one by [parse_xml], articles in order:
    the payload is cut exactly at the declarations and each piece gets its
    declaration back. *)
Theorem parse_articles_of_concatenation
    (fromstring : text -> option Element) (rs : list text) :
  (forall r, In r rs ->
             contains Parser.xml_decl r = false /\
             Parser.is_blank r = false /\
             startswith (str "<?xml") r = false) ->
  Parser.parse_articles fromstring
    (List.concat (map (app Parser.xml_decl) rs)) =
  parse_each fromstring (map (app Parser.xml_decl) rs).
Proof.
  intros H. unfold Parser.parse_articles, split_on.
  assert (S : split_on_aux Parser.xml_decl 0 []
                (List.concat (map (app Parser.xml_decl) rs)) = [] :: rs).
  { assert (H1 : contains ("<"%char :: tl Parser.xml_decl) [] = false)
      by reflexivity.
    assert (H2 : forall x, In x rs ->
                   contains ("<"%char :: tl Parser.xml_decl) x = false)
      by (intros r Hr; now destruct (H r Hr)).
    exact (@split_pieces "<"%char (tl Parser.xml_decl)
             xml_decl_head_once rs [] H1 H2). }
  rewrite S. cbn [Parser.parse_chunks]. change (Parser.is_blank []) with true.
  cbn iota. rewrite parse_chunks_docs.
  - simpl app. apply bind_ok.
  - intros r Hr. destruct (H r Hr) as (_ & B & W). now split.
Qed.

Lemma parse_articles_of_concatenation_witness :
  let r := Samples.document_rest Samples.record_xml in
  (forall x, In x [r; r] ->
             contains Parser.xml_decl x = false /\
             Parser.is_blank x = false /\
             startswith (str "<?xml") x = false) /\
  Parser.parse_articles XmlText.fromstring
    (List.concat (map (app Parser.xml_decl) [r; r])) =
  Ok [Samples.parsed_record; Samples.parsed_record].
Proof.
  intros r.
  assert (H : forall x, In x [r; r] ->
                contains Parser.xml_decl x = false /\
                Parser.is_blank x = false /\
                startswith (str "<?xml") x = false).
  { intros x [<-|[<-|[]]]; vm_compute; auto. }
  split; [exact H|].
  rewrite (parse_articles_of_concatenation XmlText.fromstring [r; r] H).
  vm_compute. reflexivity.
Defined.

(** ** Fields of a parsed record *)

Lemma extract_article_year record a :
  Parser.extract_article record = Ok a -> year a = Parser.get_year record.
Proof.
  unfold Parser.extract_article.
  destruct (Parser.get_authors _ _); cbn [bind]; [|discriminate].
  intros H. injection H as <-. reflexivity.
Qed.

(** The year of a record has at most four characters.  It is read from the
    first [PubDate/Year] element whenever there is one, also when that
    element is empty (the year is then empty and [MedlineDate] is not
    consulted); [MedlineDate] is used only in the absence of a [Year]
    element; with neither the year is empty. *)
Theorem year_of_record (record : Element) :
  let first4 (e : Element) :=
    match etext e with Some u => firstn 4 u | None => [] end in
  List.length (Parser.get_year record) <= 4 /\
  (forall y, find_desc_child (str "PubDate") (str "Year") record = Some y ->
             Parser.get_year record = first4 y) /\
  (forall m, find_desc_child (str "PubDate") (str "Year") record = None ->
             find_desc_child (str "PubDate") (str "MedlineDate") record = Some m ->
             Parser.get_year record = first4 m) /\
  (find_desc_child (str "PubDate") (str "Year") record = None ->
   find_desc_child (str "PubDate") (str "MedlineDate") record = None ->
   Parser.get_year record = []) /\
  (forall a, Parser.extract_article record = Ok a ->
             year a = Parser.get_year record).
Proof.
  intros first4.
  assert (F : forall e,
             (if truthy (etext e)
              then match etext e with Some u => prefix 4 u | None => [] end
              else []) = first4 e).
  { intros e. unfold first4, prefix.
    destruct (etext e) as [[|c u]|]; reflexivity. }
  assert (L : forall e, List.length (first4 e) <= 4).
  { intros e. unfold first4. destruct (etext e) as [u|]; [|simpl; lia].
    rewrite length_firstn. lia. }
  assert (Y : forall a, Parser.extract_article record = Ok a ->
                        year a = Parser.get_year record)
    by (intros a; apply extract_article_year).
  unfold Parser.get_year in *.
  destruct (find_desc_child (str "PubDate") (str "Year") record) as [y|].
  - rewrite F in *. repeat split; try discriminate; auto.
    intros y' E. now injection E as <-.
  - destruct (find_desc_child (str "PubDate") (str "MedlineDate") record)
      as [m|].
    + rewrite F in *. repeat split; try discriminate; auto.
      intros m' _ E. now injection E as <-.
    + repeat split; try discriminate; auto.
Qed.

Lemma author_name_cases author :
  (bad_author author = true /\ Parser.author_name author = Raise TypeError) \/
  (bad_author author = false /\
   exists name, Parser.author_name author = Ok name /\
                display_name author =
                match name with Some n => [n] | None => [] end).
Proof.
  unfold bad_author, display_name, Parser.author_name.
  destruct (find_child (str "LastName") author) as [ln|].
  - destruct (find_child (str "ForeName") author) as [fn|].
    + destruct (etext ln) as [l|]; [destruct (etext fn) as [f|]|]; auto.
      right. split; [reflexivity|]. eexists. split; reflexivity.
    + right. split; [reflexivity|]. eexists. split; reflexivity.
  - right. split; [reflexivity|]. exists None. split; reflexivity.
Qed.

Lemma get_authors_spec els :
  forall authors,
    (existsb bad_author els = true ->
     Parser.get_authors els authors = Raise TypeError) /\
    (existsb bad_author els = false ->
     Parser.get_authors els authors =
     Ok (authors ++ flat_map display_name els)).
Proof.
  induction els as [|el rest IH]; intros authors;
    cbn [existsb Parser.get_authors flat_map].
  - split; [discriminate|]. now rewrite app_nil_r.
  - destruct (author_name_cases el) as [[B ->]|(B & name & -> & ->)];
      rewrite B; cbn [orb bind].
    + split; [reflexivity|discriminate].
    + destruct name as [n|]; cbn [app].
      * destruct (IH (authors ++ [n])) as [I1 I2]. split; intros H.
        -- now apply I1.
        -- rewrite (I2 H), <- app_assoc. reflexivity.
      * apply IH.
Qed.

(** The author list of a record.  When some [Author] element has both a
    [LastName] and a [ForeName] and one of them has no text, the extraction
    of the record raises [TypeError].  Otherwise it succeeds, and the
    authors are, in document order, one name per [Author] element that has a
    [LastName]: lastname, blank, forename, or the lastname alone. *)
Theorem authors_of_record (record : Element) :
  let els := findall_desc (str "Author") record in
  (existsb bad_author els = true ->
   Parser.extract_article record = Raise TypeError) /\
  (existsb bad_author els = false ->
   exists a, Parser.extract_article record = Ok a /\
             authors a = flat_map display_name els).
Proof.
  intros els. unfold Parser.extract_article. fold els.
  destruct (get_authors_spec els []) as [G1 G2]. split; intros H.
  - now rewrite (G1 H).
  - rewrite (G2 H). cbn [bind app]. eexists. split; reflexivity.
Qed.

Lemma authors_of_record_witness :
  Parser.extract_article Samples.nameless_author_record = Raise TypeError /\
  exists a, Parser.extract_article Samples.two_author_record = Ok a /\
            authors a = [Some (str "Moro Stefano"); Some (str "Consortium")].
Proof.
  split.
  - apply (proj1 (authors_of_record Samples.nameless_author_record)).
    reflexivity.
  - apply (proj2 (authors_of_record Samples.two_author_record)).
    reflexivity.
Defined.

Lemma extract_article_fields record a :
  Parser.extract_article record = Ok a ->
  pmid a = Parser.text_or (str "Unknown") (find_desc (str "PMID") record) /\
  title a = Parser.text_or (str "No title")
              (find_desc (str "ArticleTitle") record) /\
  journal a = Parser.text_or []
                (find_desc_child (str "Journal") (str "Title") record).
Proof.
  unfold Parser.extract_article.
  destruct (Parser.get_authors _ _); cbn [bind]; [|discriminate].
  intros H. injection H as <-. auto.
Qed.

(** Placeholders of a parsed record.  The placeholder ([Unknown],
    [No title], the empty string) stands in exactly when the record has no
    such element.  When the element is there, the field is its text, and it
    is [None] when the element has no text: a field is [None] exactly when
    the first such element of the record is empty. *)
Theorem placeholders_of_record (record : Element) (a : Article) :
  Parser.extract_article record = Ok a ->
  (find_desc (str "PMID") record = None -> pmid a = Some (str "Unknown")) /\
  (find_desc (str "ArticleTitle") record = None ->
   title a = Some (str "No title")) /\
  (find_desc_child (str "Journal") (str "Title") record = None ->
   journal a = Some []) /\
  (forall el, find_desc (str "PMID") record = Some el -> pmid a = etext el) /\
  (forall el, find_desc (str "ArticleTitle") record = Some el ->
              title a = etext el) /\
  (forall el, find_desc_child (str "Journal") (str "Title") record = Some el ->
              journal a = etext el) /\
  (pmid a = None <->
   exists el, find_desc (str "PMID") record = Some el /\ etext el = None) /\
  (title a = None <->
   exists el, find_desc (str "ArticleTitle") record = Some el /\
              etext el = None) /\
  (journal a = None <->
   exists el, find_desc_child (str "Journal") (str "Title") record = Some el /\
              etext el = None).
Proof.
  intros H. apply extract_article_fields in H as (-> & -> & ->).
  assert (N : forall d x,
             Parser.text_or d x = None <->
             exists el, x = Some el /\ etext el = None).
  { intros d [el|]; simpl; split.
    - intros E. now exists el.
    - intros (el' & E & K). now injection E as ->.
    - discriminate.
    - intros (el' & E & _). discriminate. }
  repeat split; try (intros el E; rewrite E; reflexivity);
    try (intros E; rewrite E; reflexivity); try apply N.
Qed.

Lemma placeholders_of_record_witness :
  exists a, Parser.extract_article Samples.two_author_record = Ok a /\
            pmid a = Some (str "7") /\ title a = Some (str "No title") /\
            journal a = Some [].
Proof.
  exists (mkArticle (Some (str "7")) (Some (str "No title")) (Some []) []
            [Some (str "Moro Stefano"); Some (str "Consortium")] []).
  assert (H : Parser.extract_article Samples.two_author_record =
              Ok (mkArticle (Some (str "7")) (Some (str "No title")) (Some [])
                    [] [Some (str "Moro Stefano"); Some (str "Consortium")] []))
    by reflexivity.
  split; [exact H|].
  destruct (placeholders_of_record Samples.two_author_record H)
    as (_ & T & J & P & _).
  split; [reflexivity|].
  split; [apply T; reflexivity | apply J; reflexivity].
Defined.

Lemma extract_all_Forall2 els :
  forall found,
    Parser.extract_all els [] = Ok found <->
    Forall2 (fun el a => Parser.extract_article el = Ok a) els found.
Proof.
  induction els as [|el rest IH]; intros found;
    cbn [Parser.extract_all bind].
  - split.
    + intros H. injection H as <-. constructor.
    + intros H. inversion H. reflexivity.
  - destruct (Parser.extract_article el) as [a|e] eqn:E; cbn [bind].
    + rewrite extract_all_acc. cbn [app]. split.
      * destruct (Parser.extract_all rest []) as [more|x] eqn:R;
          cbn [bind]; [|discriminate].
        intros H. injection H as <-. constructor; [exact E|].
        now apply IH.
      * intros H. inversion H as [|el' b rest' more Hb Hmore]; subst.
        apply IH in Hmore. rewrite Hmore. cbn [bind]. congruence.
    + split; [discriminate|].
      intros H. inversion H; subst. congruence.
Qed.

(** [parse_xml] on a document that parses returns a list exactly when every
    [PubmedArticle] element of the document can be extracted, and the list
    then holds one article per element, in document order. *)
Theorem parse_xml_one_article_per_record
    (fromstring : text -> option Element) (xml_data : text) (root : Element) :
  fromstring xml_data = Some root ->
  forall found,
    Parser.parse_xml fromstring xml_data = Ok found <->
    Forall2 (fun el a => Parser.extract_article el = Ok a)
      (findall_desc (str "PubmedArticle") root) found.
Proof.
  intros H found. unfold Parser.parse_xml. rewrite H.
  apply extract_all_Forall2.
Qed.

Lemma parse_xml_one_article_per_record_witness :
  exists root,
    XmlText.fromstring (Samples.document Samples.record_xml) = Some root /\
    Forall2 (fun el a => Parser.extract_article el = Ok a)
      (findall_desc (str "PubmedArticle") root) [Samples.parsed_record].
Proof.
  destruct (XmlText.fromstring (Samples.document Samples.record_xml))
    as [root|] eqn:E; [|vm_compute in E; discriminate].
  exists root. split; [reflexivity|].
  apply (proj1 (parse_xml_one_article_per_record XmlText.fromstring
                  (Samples.document Samples.record_xml) E
                  [Samples.parsed_record])).
  vm_compute. reflexivity.
Defined.

(** ** The location test *)

Lemma startswith_spec p : forall s,
  startswith p s = true <-> exists post, s = p ++ post.
Proof.
  induction p as [|c p IH]; intros s; simpl.
  - split; [intros _; now exists s | reflexivity].
  - destruct s as [|d s].
    + split; [discriminate | intros (post & E); discriminate].
    + rewrite andb_true_iff, eqc_eq, IH. split.
      * intros (-> & post & ->). now exists post.
      * intros (post & E). injection E as -> ->. split; [reflexivity|].
        now exists post.
Qed.

Lemma contains_spec needle : forall s,
  contains needle s = true <-> exists pre post, s = pre ++ needle ++ post.
Proof.
  induction s as [|d s IH]; cbn [contains]; rewrite orb_true_iff, startswith_spec.
  - split.
    + intros [(post & E)|H]; [|discriminate]. now exists [], post.
    + intros (pre & post & E). left.
      destruct pre; [now exists post|discriminate].
  - rewrite IH. split.
    + intros [(post & E)|(pre & post & E)].
      * now exists [], post.
      * exists (d :: pre), post. now rewrite E.
    + intros (pre & post & E). destruct pre as [|x pre].
      * left. now exists post.
      * right. injection E as -> ->. now exists pre, post.
Qed.

(** A needle without the character [b] that occurs in [u ++ b :: v] occurs
    in [u] or in [v]. *)
Lemma occurrence_splits (b : ascii) (needle u v pre post : text) :
  needle <> [] -> ~ In b needle ->
  u ++ b :: v = pre ++ needle ++ post ->
  (exists x y, u = x ++ needle ++ y) \/ (exists x y, v = x ++ needle ++ y).
Proof.
  intros Hne Hb E. apply app_eq_app in E as (l & [[E1 E2]|[E1 E2]]).
  - apply app_eq_app in E2 as (m & [[E3 E4]|[E3 E4]]).
    + destruct m as [|x m].
      * left. exists pre, []. rewrite app_nil_r in *. congruence.
      * exfalso. simpl in E4. injection E4 as E4 _. apply Hb. rewrite E3.
        apply in_or_app. right. left. congruence.
    + left. exists pre, m. now rewrite E1, E3.
  - destruct l as [|x l].
    + exfalso. simpl in E2. destruct needle as [|y needle]; [congruence|].
      simpl in E2. injection E2 as E2 _. apply Hb. left. congruence.
    + simpl in E2. injection E2 as _ E2. right. now exists l, post.
Qed.

Lemma contains_join (needle : text) (parts : list text) :
  needle <> [] -> ~ In blank needle ->
  contains needle (join (str " ") parts) = existsb (contains needle) parts.
Proof.
  intros Hne Hb. apply eq_true_iff_eq.
  rewrite existsb_exists. split.
  - rewrite contains_spec. induction parts as [|p [|q rest] IH].
    + intros (pre & post & E). simpl in E.
      destruct pre; [destruct needle; [congruence|discriminate]|discriminate].
    + intros H. exists p. split; [now left|]. now apply contains_spec.
    + rewrite join_cons. intros (pre & post & E).
      change (str " " ++ join (str " ") (q :: rest))
        with (blank :: join (str " ") (q :: rest)) in E.
      apply occurrence_splits in E as [(x & y & E)|H]; try assumption.
      * exists p. split; [now left|]. apply contains_spec. now exists x, y.
      * destruct (IH H) as (part & Hp & Hc). exists part. split; [now right|assumption].
  - intros (part & Hp & Hc). apply contains_spec in Hc as (x & y & E).
    destruct (join_In (str " ") _ _ Hp) as (pre & post & J & _ & _).
    apply contains_spec. exists (pre ++ x), (y ++ post).
    rewrite J, E, <- !app_assoc. reflexivity.
Qed.

Lemma lower_join parts :
  lower (join (str " ") parts) = join (str " ") (map lower parts).
Proof.
  induction parts as [|p [|q rest] IH]; [reflexivity|reflexivity|].
  rewrite join_cons. cbn [map]. rewrite join_cons, !lower_app, IH.
  reflexivity.
Qed.

(** The location test on the joined text amounts to a test on each
    affiliation string: an article passes exactly when one of its
    affiliation strings, lowercased, contains [padov] or [padua].  A token
    never spans two strings. *)
Theorem is_padova_per_string (a : Article) :
  is_padova a =
  existsb (fun s => contains (str "padov") (lower s) ||
                    contains (str "padua") (lower s)) (affiliations a).
Proof.
  unfold is_padova. rewrite lower_join.
  rewrite !contains_join;
    try discriminate; try (vm_compute; intuition discriminate).
  induction (affiliations a) as [|s l IH]; cbn [map existsb];
    [reflexivity|].
  rewrite <- IH.
  destruct (contains (str "padov") (lower s)),
           (contains (str "padua") (lower s)),
           (existsb (contains (str "padov")) (map lower l)),
           (existsb (contains (str "padua")) (map lower l)); reflexivity.
Qed.

(** ** More on affiliation matching *)

Lemma lower_idem s : lower (lower s) = lower s.
Proof.
  unfold lower. rewrite map_map. apply map_ext. apply lower_char_idem.
Qed.

Lemma search_embed (p : regex) (s pre post : text) :
  anchor_free p = true ->
  re_search_ic p (lower s) = true ->
  (pre = [] \/ exists q, pre = q ++ str " ") ->
  (post = [] \/ exists q, post = str " " ++ q) ->
  re_search_ic p (lower (pre ++ s ++ post)) = true.
Proof.
  unfold re_search_ic. intros Haf Hs Hpre Hpost.
  apply search_spec in Hs as (i & j & HM).
  rewrite !lower_app, <- (lower_idem s). apply search_spec.
  exists (List.length (lower pre) + i), (List.length (lower pre) + j).
  apply Match_embed; [| |assumption|assumption].
  - intros k c Hk Hc. destruct Hpre as [->|(q & ->)]; [discriminate|].
    rewrite lower_app in Hk, Hc. rewrite length_app in Hk. simpl in Hk.
    rewrite nth_error_app2 in Hc by lia.
    replace (k - List.length (lower q)) with 0 in Hc by lia.
    simpl in Hc. injection Hc as <-. reflexivity.
  - intros c Hc. destruct Hpost as [->|(q & ->)]; [discriminate|].
    simpl in Hc. injection Hc as <-. reflexivity.
Qed.

Lemma join_app sep (l1 l2 : list text) :
  l1 <> [] -> l2 <> [] ->
  join sep (l1 ++ l2) = join sep l1 ++ sep ++ join sep l2.
Proof.
  intros H1 H2. induction l1 as [|p [|q rest] IH]; [congruence| |].
  - destruct l2 as [|r l2]; [congruence|]. reflexivity.
  - change ((p :: q :: rest) ++ l2) with (p :: q :: (rest ++ l2)).
    rewrite !join_cons.
    change (q :: rest ++ l2) with ((q :: rest) ++ l2).
    rewrite IH by discriminate. now rewrite <- !app_assoc.
Qed.

Lemma join_block sep (before affs after : list text) :
  affs <> [] ->
  exists pre post,
    join sep (before ++ affs ++ after) = pre ++ join sep affs ++ post /\
    (pre = [] \/ exists q, pre = q ++ sep) /\
    (post = [] \/ exists q, post = sep ++ q).
Proof.
  intros H.
  assert (T : exists post,
             join sep (affs ++ after) = join sep affs ++ post /\
             (post = [] \/ exists q, post = sep ++ q)).
  { destruct after as [|a after].
    - exists []. rewrite !app_nil_r. auto.
    - exists (sep ++ join sep (a :: after)).
      rewrite join_app by (assumption || discriminate). eauto. }
  destruct T as (post & E & Hpost).
  destruct before as [|b before].
  - exists [], post. simpl. auto.
  - exists (join sep (b :: before) ++ sep), post.
    rewrite join_app; [|discriminate|].
    + rewrite E, <- !app_assoc. eauto.
    + destruct affs; [congruence|discriminate].
Qed.

(** An article that passes the joined check for a list of anchor-free
    patterns, as all pattern lists of the scripts are, still passes it when
    affiliation strings are added in front of its affiliations or after
    them. *)
Theorem check_affiliation_match_monotone
    (before affs after : list text) (patterns : list regex) :
  affs <> [] ->
  forallb anchor_free patterns = true ->
  check_affiliation_match affs patterns = true ->
  check_affiliation_match (before ++ affs ++ after) patterns = true.
Proof.
  unfold check_affiliation_match. intros Hne Haf H.
  apply any_pattern_spec in H as (p & Hp & Hs).
  apply any_pattern_spec. exists p. split; [assumption|].
  destruct (join_block (str " ") before after Hne)
    as (pre & post & -> & Hpre & Hpost).
  apply search_embed; try assumption.
  rewrite forallb_forall in Haf. now apply Haf.
Qed.

Lemma check_affiliation_match_monotone_witness :
  check_affiliation_match
    ([str "Ospedale"] ++ [Samples.dctv_aff] ++ [Samples.dsf_aff])
    DCTV_PATTERNS = true.
Proof.
  apply check_affiliation_match_monotone.
  - discriminate.
  - reflexivity.
  - vm_compute. reflexivity.
Defined.

(** Under [re.IGNORECASE] two texts with the same lowercase form have the
    same matches. *)
Section SameLower.

Variables t u : text.
Hypothesis same : lower t = lower u.







End SameLower.





Lemma year_of_record_witness :
  Parser.get_year Samples.dated_record = str "2019".
Proof.
  apply (proj1 (proj2 (year_of_record Samples.dated_record))
           (Elem (str "Year") (Some (str "2019")) [])).
  reflexivity.
Defined.

(** ** The whole selection *)

Section FirstOccurrencesMore.

Variables (A K : Type) (key : A -> K) (eqb : K -> K -> bool).
Hypothesis eqb_eq : forall x y, eqb x y = true <-> x = y.

(** A list without repeated keys, none of them seen, is left as it is. *)
Lemma first_occurrences_fixed l :
  forall seen,
    NoDup (map key l) -> (forall x, In x l -> ~ In (key x) seen) ->
    first_occurrences key eqb seen l = l.
Proof.
  induction l as [|x l IH]; intros seen N H; cbn [first_occurrences];
    [reflexivity|].
  assert (E : existsb (eqb (key x)) seen = false).
  { apply (@seen_not_In K eqb eqb_eq). apply H. now left. }
  rewrite E. f_equal. cbn [map] in N. inversion N as [|k ks Hk N']; subst.
  apply IH; [assumption|].
  intros y Hy [Hs|Hs].
  - apply Hk. rewrite Hs. now apply in_map.
  - apply (H y); [now right|assumption].
Qed.

End FirstOccurrencesMore.

Lemma dedupe_spec cs :
  dedupe cs = first_occurrences (fun c => pmid (article c)) pystr_eqb [] cs.
Proof. unfold dedupe. now rewrite dedupe_loop_spec. Qed.



Lemma ltb_irrefl s : ltb s s = false.
Proof.
  destruct (ltb s s) eqn:E; [|reflexivity].
  now rewrite (ltb_asym _ _ E) in E.
Qed.

(** The sort is stable: the entries with a given key are in their input
    order. *)
Lemma sort_desc_stable (A : Type) (key : A -> text) (y : text) (l : list A) :
  filter (fun c => eqt (key c) y) (sort_desc key l) =
  filter (fun c => eqt (key c) y) l.
Proof.
  induction l as [|x l IH]; [reflexivity|].
  cbn [sort_desc fold_right]. fold (sort_desc key l).
  cbn [filter]. rewrite <- IH. clear IH.
  induction (sort_desc key l) as [|z m IHm]; [reflexivity|].
  cbn [insert_desc]. destruct (leb (key z) (key x)) eqn:L; [reflexivity|].
  cbn [filter]. rewrite IHm.
  destruct (eqt (key x) y) eqn:X; [|reflexivity].
  destruct (eqt (key z) y) eqn:Z; [|reflexivity].
  apply eqt_eq in X, Z. unfold leb in L. rewrite Z, X, ltb_irrefl in L.
  discriminate.
Qed.

(** Entries of the same year leave the sort in the order in which they
    entered it, in both scripts. *)
Theorem sort_keeps_order_within_year (y : text) :
  (forall cs : list Collaboration,
     filter (fun c => eqt (year_key c) y) (sort_desc year_key cs) =
     filter (fun c => eqt (year_key c) y) cs) /\
  (forall cs : list Collaboration02,
     filter (fun c => eqt (year_key02 c) y) (sort_desc year_key02 cs) =
     filter (fun c => eqt (year_key02 c) y) cs).
Proof. split; intros cs; apply sort_desc_stable. Qed.

(** The collaboration list of [03_search_with_names.py], after filtering,
    removal of duplicates and sorting: when every author name is a string
    the list is produced, no PMID occurs twice in it, it is in descending
    order of year, each of its entries is an input article that satisfies
    the three conditions, and every input article that satisfies them is
    represented by an entry with its PMID. *)
Theorem selection_of_collaborations
    (dctv_faculty dsf_faculty : list text) (articles : list Article) :
  (forall a, In a articles -> forall x, In x (authors a) -> x <> None) ->
  exists final,
    collaborations_03 dctv_faculty dsf_faculty articles = Ok final /\
    NoDup (map (fun c => pmid (article c)) final) /\
    StronglySorted (fun c d => leb (year_key d) (year_key c) = true) final /\
    (forall c, In c final ->
               In (article c) articles /\
               qualifies DCTV_PATTERNS DSF_PATTERNS (article c) = true) /\
    (forall a, In a articles ->
               qualifies DCTV_PATTERNS DSF_PATTERNS a = true ->
               In (pmid a) (map (fun c => pmid (article c)) final)).
Proof.
  intros H. unfold collaborations_03.
  destruct (filter_03_spec dctv_faculty dsf_faculty articles H [])
    as (cs & -> & M).
  cbn [bind map app] in *.
  exists (sort_desc year_key (dedupe cs)). split; [reflexivity|].
  pose proof (sort_desc_perm year_key (dedupe cs)) as P.
  split; [|split; [|split]].
  - apply Permutation_NoDup with (map (fun c => pmid (article c)) (dedupe cs)).
    + apply Permutation_map. now symmetry.
    + rewrite dedupe_spec. apply first_occurrences_NoDup, pystr_eqb_eq.
  - apply sort_desc_sorted.
  - intros c Hc. apply (Permutation_in _ P) in Hc. rewrite dedupe_spec in Hc.
    apply first_occurrences_In in Hc as [Hc _]; [|apply pystr_eqb_eq].
    apply (in_map article) in Hc. rewrite M in Hc.
    now apply filter_In in Hc.
  - intros a Ha Hq.
    assert (Hin : In a (map article cs))
      by (rewrite M; apply filter_In; auto).
    apply in_map_iff in Hin as (c & <- & Hc).
    apply Permutation_in with (map (fun c => pmid (article c)) (dedupe cs)).
    + apply Permutation_map. now symmetry.
    + rewrite dedupe_spec.
      apply (@first_occurrences_keys _ _ (fun c => pmid (article c))
               pystr_eqb pystr_eqb_eq cs [] c Hc).
      intros [].
Qed.

Lemma selection_of_collaborations_witness :
  exists final,
    collaborations_03 DCTV_FACULTY DSF_FACULTY [Samples.joint_article]
      = Ok final /\
    NoDup (map (fun c => pmid (article c)) final).
Proof.
  assert (H : forall a, In a [Samples.joint_article] ->
                        forall x, In x (authors a) -> x <> None).
  { intros a [<-|[]] x [<-|[<-|[]]]; discriminate. }
  destruct (selection_of_collaborations DCTV_FACULTY DSF_FACULTY
              [Samples.joint_article] H) as (final & E & N & _).
  exists final. split; assumption.
Defined.

(** The collaboration list of [02_search_collaborations.py], which removes
    no duplicates: its articles are the input articles that satisfy the
    three conditions, each as many times as it occurs in the input, and the
    list is in descending order of year. *)
Theorem selection_of_collaborations_02 (articles : list Article) :
  Permutation (map article02 (collaborations_02 articles))
    (filter (qualifies DCTV_PATTERNS_02 DSF_PATTERNS_02) articles) /\
  StronglySorted (fun c d => leb (year_key02 d) (year_key02 c) = true)
    (collaborations_02 articles).
Proof.
  unfold collaborations_02. split.
  - rewrite <- (app_nil_l (filter _ articles)).
    change (@nil Article) with (map article02 []).
    rewrite <- filter_02_spec.
    apply Permutation_map. apply sort_desc_perm.
  - apply sort_desc_sorted.
Qed.

(** ** Results of a search *)

(** [search_pubmed] of [03_search_with_names.py] on a response that decodes
    to JSON.  If the value is not an object the call fails with
    [AttributeError] and degrades.  If it is an object without the key
    [esearchresult], and [int] reads [0] from the default count, the call
    returns the empty list and 0 and prints nothing.  If the result carries an identifier list
    and a count string that [int] rejects, the identifiers are dropped with
    the count.  If [int] accepts the count, the identifier list and the
    count are returned as the server gave them, with no diagnostic. *)
Theorem search_pubmed_on_json
    (urlopen_read decode : text -> result text)
    (json_loads : text -> result Esearch.json)
    (int_of_str : text -> result Z)
    (urlencode : list (text * Esearch.param) -> text)
    (query : text) (retmax : nat) (raw body : text) (data : Esearch.json) :
  let run := Esearch.search_pubmed urlopen_read decode json_loads int_of_str
               urlencode query retmax in
  let failed e := ((Esearch.JArr [], 0%Z),
                   [Esearch.ErrorLine (str "  Error: ") e]) in
  urlopen_read (Esearch.search_url urlencode query retmax) = Ok raw ->
  decode raw = Ok body ->
  json_loads body = Ok data ->
  ((forall fields, data <> Esearch.JObj fields) ->
   run = failed AttributeError) /\
  (forall fields,
     data = Esearch.JObj fields ->
     Esearch.lookup (str "esearchresult") fields = None ->
     int_of_str (str "0") = Ok 0%Z ->
     run = ((Esearch.JArr [], 0%Z), [])) /\
  (forall fields inner ids count e,
     data = Esearch.JObj fields ->
     Esearch.lookup (str "esearchresult") fields = Some (Esearch.JObj inner) ->
     Esearch.lookup (str "idlist") inner = Some ids ->
     Esearch.lookup (str "count") inner = Some (Esearch.JStr count) ->
     int_of_str count = Raise e ->
     run = failed e) /\
  (forall fields inner ids count n,
     data = Esearch.JObj fields ->
     Esearch.lookup (str "esearchresult") fields = Some (Esearch.JObj inner) ->
     Esearch.lookup (str "idlist") inner = Some ids ->
     Esearch.lookup (str "count") inner = Some (Esearch.JStr count) ->
     int_of_str count = Ok n ->
     run = ((ids, n), [])).
Proof.
  intros run failed H1 H2 H3.
  unfold run, Esearch.search_pubmed, Esearch.search_body.
  rewrite H1. cbn [bind]. rewrite H2. cbn [bind]. rewrite H3. cbn [bind].
  split; [|split; [|split]].
  - intros N. destruct data; try reflexivity. now destruct (N fields).
  - intros fields -> L Z0. cbn [Esearch.get bind]. rewrite L.
    cbn [Esearch.get Esearch.lookup bind Esearch.int]. now rewrite Z0.
  - intros fields inner ids count e -> L I C E.
    cbn [Esearch.get bind]. rewrite L. cbn [Esearch.get bind].
    rewrite C, I. cbn [Esearch.int bind]. now rewrite E.
  - intros fields inner ids count n -> L I C E.
    cbn [Esearch.get bind]. rewrite L. cbn [Esearch.get bind].
    rewrite C, I. cbn [Esearch.int bind]. now rewrite E.
Qed.

Lemma search_pubmed_on_json_witness :
  Esearch.search_pubmed Samples.answer Samples.utf8 Samples.empty_object
    Samples.int_zero Samples.no_encode (str "Padova[Affiliation]") 300
  = ((Esearch.JArr [], 0%Z), []).
Proof.
  assert (H1 : Samples.answer
                 (Esearch.search_url Samples.no_encode
                    (str "Padova[Affiliation]") 300) = Ok (str "{}"))
    by reflexivity.
  assert (H2 : Samples.utf8 (str "{}") = Ok (str "{}")) by reflexivity.
  assert (H3 : Samples.empty_object (str "{}") = Ok (Esearch.JObj []))
    by reflexivity.
  apply (proj1 (proj2 (search_pubmed_on_json Samples.answer Samples.utf8
                         Samples.empty_object Samples.int_zero
                         Samples.no_encode (str "Padova[Affiliation]") 300
                         H1 H2 H3)) []);
    reflexivity.
Defined.

(** ** More on author reconciliation *)

Lemma check_author_in_list_filter authors roster :
  check_author_in_list authors roster =
  filter (fun a => existsb (name_match (strip (lower a))) roster) authors.
Proof. unfold check_author_in_list. now rewrite author_loop_spec. Qed.

Lemma name_match_false_short author faculty :
  List.length (firstname_of faculty) < 5 \/
  List.length (firstname_of author) < 5 ->
  name_match (strip (lower author)) faculty = false.
Proof.
  intros H. destruct (name_match (strip (lower author)) faculty) eqn:E;
    [|reflexivity].
  apply name_match_spec in E as (_ & _ & _ & A & F & _). lia.
Qed.

(** A roster entry whose firstname has fewer than 5 characters matches no
    author: it can be removed from the roster without changing any result.
    An author whose firstname has fewer than 5 characters is matched by no
    roster. *)
Theorem short_firstnames_never_match :
  (forall faculty authors roster,
     List.length (firstname_of faculty) < 5 ->
     check_author_in_list authors (faculty :: roster) =
     check_author_in_list authors roster) /\
  (forall author roster,
     List.length (firstname_of author) < 5 ->
     check_author_in_list [author] roster = []).
Proof.
  split.
  - intros faculty authors roster H. rewrite !check_author_in_list_filter.
    apply filter_ext. intros a. cbn [existsb].
    now rewrite name_match_false_short by (now left).
  - intros author roster H. rewrite check_author_in_list_filter.
    cbn [filter].
    assert (E : existsb (name_match (strip (lower author))) roster = false).
    { induction roster as [|f rest IH]; [reflexivity|]. cbn [existsb].
      now rewrite name_match_false_short, IH by (now right). }
    now rewrite E.
Qed.

Lemma short_firstnames_never_match_witness :
  In (str "Gerosa Gino") DCTV_FACULTY /\
  check_author_in_list [str "Gerosa Gino"] (str "Gerosa Gino" :: DCTV_FACULTY)
  = check_author_in_list [str "Gerosa Gino"] DCTV_FACULTY /\
  check_author_in_list [str "Gerosa Gino"] DCTV_FACULTY = [].
Proof.
  split; [vm_compute; tauto|]. split.
  - apply (proj1 short_firstnames_never_match). vm_compute. lia.
  - apply (proj2 short_firstnames_never_match). vm_compute. lia.
Defined.

(** The result depends on the roster only through the set of its entries:
    their order and their repetitions have no influence. *)
Theorem roster_order_is_irrelevant (authors roster roster' : list text) :
  (forall f, In f roster <-> In f roster') ->
  check_author_in_list authors roster = check_author_in_list authors roster'.
Proof.
  intros H. rewrite !check_author_in_list_filter. apply filter_ext.
  intros a. apply eq_true_iff_eq. rewrite !existsb_exists.
  split; intros (f & Hf & M); exists f; (split; [now apply H|assumption]).
Qed.

Lemma roster_order_is_irrelevant_witness :
  check_author_in_list [str "Moro Stefano"] DSF_FACULTY =
  check_author_in_list [str "Moro Stefano"] (rev DSF_FACULTY).
Proof.
  apply roster_order_is_irrelevant. intros f. apply in_rev.
Defined.

(** Matching sees a name only through its lowercased tokens: two spellings
    of an author that differ in letter case or in the whitespace around and
    between the tokens are matched by the same roster entries, and likewise
    for two spellings of a roster entry. *)
Theorem matching_sees_tokens_only (author author' faculty faculty' : text) :
  tokens author = tokens author' ->
  tokens faculty = tokens faculty' ->
  name_match (strip (lower author)) faculty =
  name_match (strip (lower author')) faculty'.
Proof.
  intros A F. apply eq_true_iff_eq. rewrite !name_match_spec.
  unfold same_person, lastname_of, firstname_of. now rewrite A, F.
Qed.

Lemma matching_sees_tokens_only_witness :
  name_match (strip (lower (str "De Filippis Vincenzo")))
    (str "De Filippis Vincenzo") =
  name_match (strip (lower (str "  de  FILIPPIS   Vincenzo ")))
    (str "DE FILIPPIS VINCENZO").
Proof.
  apply matching_sees_tokens_only; vm_compute; reflexivity.
Defined.

(** The two variants of [get_matching_affiliations]: that of
    [02_search_collaborations.py] returns the matching strings of the input
    in order, repeats included; that of [03_search_with_names.py] returns
    the same list with repeats dropped, so the two results have the same
    members and are equal when the affiliation list has no repeats. *)
Theorem matching_affiliations_variants
    (affs : list text) (patterns : list regex) :
  get_matching_affiliations_02 affs patterns =
    filter (any_pattern patterns) affs /\
  get_matching_affiliations affs patterns =
    distinct (get_matching_affiliations_02 affs patterns) /\
  (forall s, In s (get_matching_affiliations affs patterns) <->
             In s (get_matching_affiliations_02 affs patterns)) /\
  (NoDup affs ->
   get_matching_affiliations affs patterns =
   get_matching_affiliations_02 affs patterns).
Proof.
  assert (E2 : get_matching_affiliations_02 affs patterns =
               filter (any_pattern patterns) affs)
    by (unfold get_matching_affiliations_02;
        now rewrite matching_loop_02_spec).
  assert (E3 : get_matching_affiliations affs patterns =
               distinct (filter (any_pattern patterns) affs))
    by (unfold get_matching_affiliations; now rewrite matching_loop_spec).
  rewrite E2, E3. split; [reflexivity|]. split; [reflexivity|]. split.
  - intros s. unfold distinct. split.
    + intros H. now apply first_occurrences_In in H as [H _];
        [|apply eqt_eq].
    + intros H.
      pose proof (@first_occurrences_keys text text (fun u => u) eqt eqt_eq
                    (filter (any_pattern patterns) affs) [] s H) as K.
      rewrite map_id in K. apply K. intros [].
  - intros N. unfold distinct.
    apply (@first_occurrences_fixed _ _ (fun u : text => u) eqt eqt_eq).
    + rewrite map_id. now apply NoDup_filter.
    + intros x _ [].
Qed.

Lemma matching_affiliations_variants_witness :
  get_matching_affiliations [Samples.dctv_aff; Samples.dsf_aff] DCTV_PATTERNS =
  get_matching_affiliations_02 [Samples.dctv_aff; Samples.dsf_aff] DCTV_PATTERNS.
Proof.
  apply (proj2 (proj2 (proj2 (matching_affiliations_variants
                                [Samples.dctv_aff; Samples.dsf_aff]
                                DCTV_PATTERNS)))).
  repeat constructor; simpl; intuition discriminate.
Defined.

(** ** Records that cannot be extracted *)

Lemma extract_article_bad_author record :
  existsb bad_author (findall_desc (str "Author") record) = true ->
  Parser.extract_article record = Raise TypeError.
Proof.
  intros H. unfold Parser.extract_article.
  now rewrite (proj1 (get_authors_spec _ []) H).
Qed.

Lemma extract_all_raises els el :
  In el els -> Parser.extract_article el = Raise TypeError ->
  forall articles, Parser.extract_all els articles = Raise TypeError.
Proof.
  induction els as [|x rest IH]; intros Hin Hel articles; [destruct Hin|].
  cbn [Parser.extract_all].
  destruct (Parser.extract_article x) as [a|e] eqn:X; cbn [bind].
  - destruct Hin as [->|Hin]; [congruence|]. now apply IH.
  - now rewrite (extract_article_exn _ X).
Qed.

Lemma parse_chunks_raises fromstring chunks c root :
  In c chunks -> Parser.is_blank c = false ->
  fromstring (Parser.restore c) = Some root ->
  (forall articles,
     Parser.extract_all (findall_desc (str "PubmedArticle") root) articles
     = Raise TypeError) ->
  forall articles,
    Parser.parse_chunks fromstring chunks articles = Raise TypeError.
Proof.
  intros Hin B F R.
  induction chunks as [|x rest IH]; intros articles; [destruct Hin|].
  cbn [Parser.parse_chunks].
  destruct Hin as [->|Hin].
  - rewrite B, F, R. reflexivity.
  - destruct (Parser.is_blank x); [now apply IH|].
    destruct (fromstring (Parser.restore x)) as [r|]; [|now apply IH].
    destruct (Parser.extract_all _ articles) as [l|e] eqn:X; cbn [bind].
    + now apply IH.
    + now rewrite (extract_all_exn _ _ X).
Qed.

(** In [parse_articles] one record with an author whose name cannot be put
    together is fatal: if some piece of the payload parses and holds such a
    record, the function raises [TypeError], and the articles of all other
    records and documents are lost with it. *)
Theorem parse_articles_aborts_on_bad_author
    (fromstring : text -> option Element) (xml_data chunk : text)
    (root record : Element) :
  In chunk (split_on Parser.xml_decl xml_data) ->
  Parser.is_blank chunk = false ->
  fromstring (Parser.restore chunk) = Some root ->
  In record (findall_desc (str "PubmedArticle") root) ->
  existsb bad_author (findall_desc (str "Author") record) = true ->
  Parser.parse_articles fromstring xml_data = Raise TypeError.
Proof.
  intros Hc B F Hr Hbad. unfold Parser.parse_articles.
  apply parse_chunks_raises with chunk root; try assumption.
  intros articles. apply extract_all_raises with record; [assumption|].
  now apply extract_article_bad_author.
Qed.

Lemma parse_articles_aborts_on_bad_author_witness :
  Parser.parse_articles XmlText.fromstring
    (Samples.document Samples.record_xml ++
     Samples.document Samples.nameless_record_xml)
  = Raise TypeError.
Proof.
  destruct (XmlText.fromstring
              (Parser.restore
                 (Samples.document_rest Samples.nameless_record_xml)))
    as [root|] eqn:F; [|vm_compute in F; discriminate].
  destruct (findall_desc (str "PubmedArticle") root) as [|record l] eqn:R;
    [vm_compute in F; injection F as <-; vm_compute in R; discriminate|].
  apply parse_articles_aborts_on_bad_author
    with (Samples.document_rest Samples.nameless_record_xml) root record.
  - vm_compute. tauto.
  - vm_compute. reflexivity.
  - exact F.
  - rewrite R. now left.
  - vm_compute in F. injection F as <-. vm_compute in R.
    injection R as <- _. vm_compute. reflexivity.
Defined.

(** ** Elements below an element *)

Lemma Element_induction (P : Element -> Prop) :
  (forall n x cs, Forall P cs -> P (Elem n x cs)) -> forall e, P e.
Proof.
  intros H. fix IH 1. intros [n x cs]. apply H.
  induction cs as [|c cs IHcs]; constructor; [apply IH|assumption].
Qed.

Lemma flat_map_cons_perm (A : Type) (f : A -> list A) (l : list A) :
  Permutation (flat_map (fun c => c :: f c) l) (l ++ flat_map f l).
Proof.
  induction l as [|c l IH]; [reflexivity|].
  cbn [flat_map app]. constructor.
  rewrite IH, !app_assoc. apply Permutation_app_tail, Permutation_app_comm.
Qed.

Lemma flat_map_perm_ext (A B : Type) (f g : A -> list B) (l : list A) :
  Forall (fun c => Permutation (f c) (g c)) l ->
  Permutation (flat_map f l) (flat_map g l).
Proof.
  induction 1 as [|c l Hc Hl IH]; [reflexivity|].
  cbn [flat_map]. now apply Permutation_app.
Qed.

Lemma flat_map_nested (A B C : Type) (f : A -> list B) (g : B -> list C) l :
  flat_map g (flat_map f l) = flat_map (fun x => flat_map g (f x)) l.
Proof.
  induction l as [|x l IH]; [reflexivity|].
  cbn [flat_map]. now rewrite flat_map_app, IH.
Qed.

(** The elements below [e] are its children together with the children of
    the elements below it. *)
Lemma descendants_perm e :
  Permutation (descendants e)
    (children e ++ flat_map children (descendants e)).
Proof.
  induction e as [n x cs IH] using Element_induction.
  cbn [descendants children].
  rewrite flat_map_cons_perm at 1.
  apply Permutation_app_head.
  rewrite flat_map_nested.
  apply flat_map_perm_ext.
  rewrite Forall_forall in IH |- *. intros c Hc.
  cbn [flat_map]. now apply IH.
Qed.

Lemma filter_perm (A : Type) (f : A -> bool) (l m : list A) :
  Permutation l m -> Permutation (filter f l) (filter f m).
Proof.
  induction 1 as [|x l m H IH|x y l|l m k H1 IH1 H2 IH2]; cbn [filter].
  - constructor.
  - destruct (f x); [now constructor|assumption].
  - destruct (f x), (f y); try reflexivity. apply perm_swap.
  - now transitivity (filter f m).
Qed.

Lemma filter_flat_map (A B : Type) (f : B -> bool) (g : A -> list B) l :
  filter f (flat_map g l) = flat_map (fun a => filter f (g a)) l.
Proof.
  induction l as [|a l IH]; [reflexivity|].
  cbn [flat_map]. now rewrite filter_app, IH.
Qed.

Lemma flat_map_partition (A B : Type) (f : A -> bool) (g : A -> list B) l :
  Permutation (flat_map g l)
    (flat_map g (filter f l) ++ flat_map g (filter (fun a => negb (f a)) l)).
Proof.
  induction l as [|a l IH]; [reflexivity|].
  cbn [flat_map filter]. destruct (f a); cbn [negb flat_map].
  - rewrite <- app_assoc. now apply Permutation_app_head.
  - rewrite IH, !app_assoc.
    apply Permutation_app_tail, Permutation_app_comm.
Qed.

(** The elements found at [.//p/n] are among those found at [.//n]. *)
Lemma findall_child_within p n e :
  exists others,
    Permutation (findall_desc n e) (findall_desc_child p n e ++ others).
Proof.
  unfold findall_desc_child, findall_desc.
  set (g := fun a => filter (has_tag n) (children a)).
  exists (flat_map g (filter (fun a => negb (has_tag p a)) (descendants e))
          ++ filter (has_tag n) (children e)).
  rewrite (filter_perm (has_tag n) (descendants_perm e)).
  rewrite filter_app, filter_flat_map. fold g.
  rewrite (flat_map_partition (has_tag p) g (descendants e)).
  etransitivity; [apply Permutation_app_comm|].
  rewrite <- app_assoc. reflexivity.
Qed.

Lemma nonempty_texts_app l m :
  nonempty_texts (l ++ m) = nonempty_texts l ++ nonempty_texts m.
Proof. apply flat_map_app. Qed.

(** The per-author affiliation texts of a record are among its affiliation
    texts, with their multiplicity. *)
Lemma per_author_within record :
  exists legacy,
    Permutation (all_affiliation_texts record)
      (per_author_texts record ++ legacy).
Proof.
  destruct (findall_child_within (str "AffiliationInfo") (str "Affiliation")
              record) as (others & P).
  exists (nonempty_texts others).
  unfold all_affiliation_texts, per_author_texts.
  rewrite <- nonempty_texts_app. unfold nonempty_texts.
  now apply Permutation_flat_map.
Qed.

Lemma pairs_spec pmid_text els :
  forall acc,
    Screen.pairs pmid_text els acc =
    acc ++ map (pair pmid_text) (nonempty_texts els).
Proof.
  induction els as [|e rest IH]; intros acc; cbn [Screen.pairs].
  - cbn. now rewrite app_nil_r.
  - unfold nonempty_texts. cbn [flat_map]. fold (nonempty_texts rest).
    destruct (etext e) as [[|c u]|]; cbn [app map]; try apply IH.
    rewrite IH, <- app_assoc. reflexivity.
Qed.

Lemma records_loop_spec rs :
  forall acc,
    Screen.records_loop rs acc =
    acc ++ flat_map (fun r => Screen.record_affiliations r []) rs.
Proof.
  induction rs as [|r rest IH]; intros acc;
    cbn [Screen.records_loop flat_map].
  - now rewrite app_nil_r.
  - rewrite IH. unfold Screen.record_affiliations.
    rewrite !pairs_spec. cbn [app]. now rewrite <- !app_assoc.
Qed.

(** The screen of [01_screen_affiliations.py] lists every per-author
    affiliation of a record twice.  For each record it records all the
    affiliation texts and then the per-author ones again, each with the
    PMID text of the record; since the per-author texts are among all the
    texts, the recorded texts are the per-author texts twice over plus the
    remaining ones.  On a document that parses, the result is the
    concatenation of what the records give, in document order. *)
Theorem screen_lists_per_author_affiliations_twice :
  (forall record,
     let pmid_text :=
       Parser.text_or (str "Unknown") (find_desc (str "PMID") record) in
     Screen.record_affiliations record [] =
       map (pair pmid_text)
         (all_affiliation_texts record ++ per_author_texts record) /\
     exists legacy,
       Permutation (map snd (Screen.record_affiliations record []))
         (per_author_texts record ++ per_author_texts record ++ legacy)) /\
  (forall fromstring xml_data root,
     fromstring xml_data = Some root ->
     Screen.extract_affiliations fromstring xml_data =
     (flat_map (fun r => Screen.record_affiliations r [])
        (findall_desc (str "PubmedArticle") root), [])).
Proof.
  split.
  - intros record pmid_text.
    assert (E : Screen.record_affiliations record [] =
                map (pair pmid_text)
                  (all_affiliation_texts record ++ per_author_texts record)).
    { unfold Screen.record_affiliations. fold pmid_text.
      rewrite !pairs_spec. cbn [app]. now rewrite map_app. }
    split; [exact E|].
    destruct (per_author_within record) as (legacy & P).
    exists legacy. rewrite E, map_map. cbn [snd]. rewrite map_id, P.
    rewrite <- !app_assoc. apply Permutation_app_head, Permutation_app_comm.
  - intros fromstring xml_data root H. unfold Screen.extract_affiliations.
    rewrite H, records_loop_spec. reflexivity.
Qed.

Lemma screen_lists_per_author_affiliations_twice_witness :
  Screen.extract_affiliations XmlText.fromstring
    (Samples.document Samples.record_xml)
  = ([(Some (str "101"), Samples.shared_aff);
      (Some (str "101"), Samples.shared_aff);
      (Some (str "101"), Samples.shared_aff);
      (Some (str "101"), Samples.shared_aff)], []).
Proof.
  destruct (XmlText.fromstring (Samples.document Samples.record_xml))
    as [root|] eqn:F; [|vm_compute in F; discriminate].
  rewrite (proj2 screen_lists_per_author_affiliations_twice
             XmlText.fromstring _ root F).
  vm_compute in F. injection F as <-. vm_compute. reflexivity.
Defined.

(** The affiliation list of a parsed record has exactly the non-empty
    affiliation texts of the record as its members: nothing is added, and
    nothing is lost. *)
Theorem affiliations_are_the_record_texts (record : Element) (s : text) :
  In s (Parser.get_affiliations record) <->
  In s (all_affiliation_texts record).
Proof.
  unfold Parser.get_affiliations.
  rewrite collect_old_spec, collect_new_spec. cbn [app].
  fold (per_author_texts record) (all_affiliation_texts record).
  destruct (per_author_within record) as (legacy & P).
  rewrite in_app_iff. split.
  - intros [H|H].
    + apply Permutation_in with (per_author_texts record ++ legacy);
        [now symmetry|]. apply in_or_app. now left.
    + now apply first_occurrences_In in H as [H _]; [|apply eqt_eq].
  - intros H. destruct (mem s (per_author_texts record)) eqn:M.
    + left. now apply mem_In.
    + right. apply mem_false in M.
      pose proof (@first_occurrences_keys text text (fun u => u) eqt eqt_eq
                    (all_affiliation_texts record)
                    (per_author_texts record) s H M) as K.
      now rewrite map_id in K.
Qed.

(** ** Tokens *)

Lemma good_token_rev cur c :
  forallb (fun c => negb (is_space c)) cur = true -> is_space c = false ->
  forallb (fun c => negb (is_space c)) (c :: cur) = true.
Proof. intros H C. simpl. now rewrite C. Qed.

Lemma forallb_rev (A : Type) (f : A -> bool) l :
  forallb f l = true -> forallb f (rev l) = true.
Proof.
  rewrite !forallb_forall. intros H x Hx. apply H. now apply in_rev.
Qed.

Lemma split_ws_aux_good s :
  forall cur, forallb (fun c => negb (is_space c)) cur = true ->
              Forall good_token (split_ws_aux cur s).
Proof.
  assert (G : forall cur, cur <> [] ->
                forallb (fun c => negb (is_space c)) cur = true ->
                good_token (rev cur)).
  { intros cur N H. split; [|now apply forallb_rev].
    intros E. apply N. apply (f_equal (@rev ascii)) in E.
    now rewrite rev_involutive in E. }
  induction s as [|c s IH]; intros cur H; cbn [split_ws_aux].
  - destruct cur; [constructor|]. constructor; [|constructor].
    now apply G.
  - destruct (is_space c) eqn:C.
    + destruct cur as [|d cur]; [now apply IH|].
      constructor; [now apply G|now apply IH].
    + apply IH. now apply good_token_rev.
Qed.

Lemma split_ws_good s : Forall good_token (split_ws s).
Proof. now apply split_ws_aux_good. Qed.

Lemma split_ws_aux_token t :
  forallb (fun c => negb (is_space c)) t = true ->
  forall cur rest, split_ws_aux cur (t ++ rest) = split_ws_aux (rev t ++ cur) rest.
Proof.
  induction t as [|c t IH]; intros H cur rest; [reflexivity|].
  simpl in H. apply andb_true_iff in H as [C H].
  apply negb_true_iff in C. cbn [app split_ws_aux]. rewrite C.
  rewrite IH by assumption. cbn [rev]. now rewrite <- app_assoc.
Qed.

Lemma split_ws_two t1 t2 :
  good_token t1 -> good_token t2 ->
  split_ws (t1 ++ str " " ++ t2) = [t1; t2].
Proof.
  intros [N1 G1] [N2 G2]. unfold split_ws.
  rewrite split_ws_aux_token by assumption. rewrite app_nil_r.
  change (str " " ++ t2) with (blank :: t2). cbn [split_ws_aux].
  change (is_space blank) with true. cbn iota.
  destruct (rev t1) as [|d r] eqn:R.
  - exfalso. apply N1. apply (f_equal (@rev ascii)) in R.
    now rewrite rev_involutive in R.
  - rewrite <- R, rev_involutive. f_equal.
    rewrite <- (app_nil_r t2) at 1.
    rewrite split_ws_aux_token by assumption. rewrite app_nil_r.
    cbn [split_ws_aux].
    destruct (rev t2) as [|d2 r2] eqn:R2.
    + exfalso. apply N2. apply (f_equal (@rev ascii)) in R2.
      now rewrite rev_involutive in R2.
    + now rewrite <- R2, rev_involutive.
Qed.

Lemma split_ws_aux_lower s :
  forall cur,
    split_ws_aux (lower cur) (lower s) = map lower (split_ws_aux cur s).
Proof.
  assert (R : forall cur, rev (lower cur) = lower (rev cur))
    by (intros cur; unfold lower; now rewrite map_rev).
  induction s as [|c s IH]; intros cur.
  - destruct cur as [|d cur]; [reflexivity|].
    change (split_ws_aux (lower (d :: cur)) (lower []))
      with [rev (lower (d :: cur))].
    now rewrite R.
  - change (lower (c :: s)) with (lower_char c :: lower s).
    cbn [split_ws_aux]. rewrite is_space_lower. destruct (is_space c).
    + destruct cur as [|d cur]; [apply (IH [])|].
      change (lower (d :: cur)) with (lower_char d :: lower cur).
      cbn iota. change (lower_char d :: lower cur) with (lower (d :: cur)).
      rewrite R. cbn [map]. f_equal. apply (IH []).
    + apply (IH (c :: cur)).
Qed.

Lemma tokens_map s : tokens s = map lower (split_ws s).
Proof. unfold tokens, split_ws. apply (split_ws_aux_lower s []). Qed.

Lemma good_token_lower t : good_token t -> good_token (lower t).
Proof.
  intros [N G]. split.
  - destruct t; [congruence|discriminate].
  - unfold lower. rewrite forallb_forall in G |- *. intros c Hc.
    apply in_map_iff in Hc as (d & <- & Hd). rewrite is_space_lower.
    now apply G.
Qed.

(** ** The author named in a cross-search query *)

Lemma check_single author faculty :
  check_author_in_list [author] [faculty] =
  if name_match (strip (lower author)) faculty then [author] else [].
Proof.
  rewrite check_author_in_list_filter. cbn [filter existsb].
  now rewrite orb_false_r.
Qed.

Lemma tokens_of_term name l f rest :
  split_ws name = l :: f :: rest ->
  tokens (Queries.author_term l f) = [lower l; lower f].
Proof.
  intros E. pose proof (split_ws_good name) as G. rewrite E in G.
  inversion G as [|? ? Gl G']; subst. inversion G' as [|? ? Gf _]; subst.
  rewrite tokens_map. unfold Queries.author_term.
  now rewrite split_ws_two.
Qed.

(** The author that [main] names in the cross-search query for a roster
    name is made of the first two tokens of the name.  For a name of exactly
    two tokens, reconciliation recognises this author as the roster name
    exactly when the firstname has at least 5 characters.  For a name of
    three or more tokens (a compound surname, a double firstname) it never
    does: the query names an author that the roster entry it was built from
    does not match. *)
Theorem author_term_of_roster_name (name : text) :
  (forall l f,
     split_ws name = [l; f] ->
     Queries.name_parts name = Some (l, f) /\
     check_author_in_list [Queries.author_term l f] [name] =
     if 5 <=? List.length f then [Queries.author_term l f] else []) /\
  (forall l f t rest,
     split_ws name = l :: f :: t :: rest ->
     Queries.name_parts name = Some (l, f) /\
     check_author_in_list [Queries.author_term l f] [name] = []).
Proof.
  split.
  - intros l f E. split; [unfold Queries.name_parts; now rewrite E|].
    rewrite check_single.
    assert (T : tokens (Queries.author_term l f) = tokens name)
      by (rewrite (tokens_of_term _ E), tokens_map, E; reflexivity).
    destruct (5 <=? List.length f) eqn:L.
    + apply Nat.leb_le in L.
      assert (M : name_match (strip (lower (Queries.author_term l f))) name
                  = true).
      { apply name_match_spec.
        unfold same_person, lastname_of, firstname_of. rewrite T.
        rewrite tokens_map, E. cbn [map List.length last_item last].
        rewrite lower_length. repeat split; lia. }
      now rewrite M.
    + apply Nat.leb_gt in L.
      rewrite name_match_false_short; [reflexivity|]. left.
      unfold firstname_of. rewrite tokens_map, E.
      cbn [map last_item last]. now rewrite lower_length.
  - intros l f t rest E. split; [unfold Queries.name_parts; now rewrite E|].
    rewrite check_single.
    destruct (name_match (strip (lower (Queries.author_term l f))) name)
      eqn:M; [|reflexivity].
    exfalso. apply name_match_spec in M as (_ & _ & S & _).
    unfold lastname_of in S. rewrite (tokens_of_term _ E) in S.
    rewrite tokens_map, E in S.
    cbn [map but_last removelast] in S.
    destruct (removelast (lower t :: map lower rest)) as [|x r];
      cbn [join] in S;
      apply (f_equal (@List.length ascii)) in S;
      rewrite ?length_app in S; simpl in S; lia.
Qed.

Lemma author_term_of_roster_name_witness :
  check_author_in_list [str "Moro Stefano"] [str "Moro Stefano"]
    = [str "Moro Stefano"] /\
  check_author_in_list [str "De Filippis"] [str "De Filippis Vincenzo"] = [].
Proof.
  split.
  - apply (proj1 (author_term_of_roster_name (str "Moro Stefano"))
             (str "Moro") (str "Stefano")).
    reflexivity.
  - apply (proj2 (author_term_of_roster_name (str "De Filippis Vincenzo"))
             (str "De") (str "Filippis") (str "Vincenzo") []).
    reflexivity.
Defined.

(** ** Grouping of the screened affiliations *)

Lemma append_to_assoc aff pmid d k :
  assoc k (Screen.append_to aff pmid d) =
  if eqt aff k
  then Some (match assoc k d with Some l => l ++ [pmid] | None => [pmid] end)
  else assoc k d.
Proof.
  induction d as [|[k' l] rest IH]; cbn [Screen.append_to assoc].
  - destruct (eqt aff k); reflexivity.
  - destruct (eqt k' aff) eqn:E1; cbn [assoc].
    + apply eqt_eq in E1. subst k'.
      destruct (eqt aff k); reflexivity.
    + destruct (eqt k' k) eqn:E2; [|exact IH].
      destruct (eqt aff k) eqn:E3; [|reflexivity].
      apply eqt_eq in E2, E3. subst. now rewrite eqt_refl in E1.
Qed.

Lemma append_to_keys aff pmid d :
  map fst (Screen.append_to aff pmid d) =
  if mem aff (map fst d) then map fst d else map fst d ++ [aff].
Proof.
  induction d as [|[k l] rest IH]; cbn [Screen.append_to map fst];
    [reflexivity|].
  unfold mem. cbn [existsb].
  destruct (eqt k aff) eqn:E.
  - apply eqt_eq in E. subst. now rewrite eqt_refl.
  - assert (E' : eqt aff k = false).
    { destruct (eqt aff k) eqn:X; [|reflexivity].
      apply eqt_eq in X. subst. now rewrite eqt_refl in E. }
    rewrite E'. cbn [orb map fst]. fold (mem aff (map fst rest)).
    rewrite IH. now destruct (mem aff (map fst rest)).
Qed.

Lemma group_assoc affs k :
  forall d,
    assoc k (Screen.group affs d) =
    match map fst (filter (fun pr => Screen.related (snd pr) && eqt (snd pr) k)
                     affs),
          assoc k d with
    | [], old => old
    | new, Some l => Some (l ++ new)
    | new, None => Some new
    end.
Proof.
  induction affs as [|[pmid aff] rest IH]; intros d;
    cbn [Screen.group filter snd map fst].
  - now destruct (assoc k d).
  - destruct (Screen.related aff); cbn [andb]; [|apply IH].
    rewrite IH, append_to_assoc.
    destruct (eqt aff k); cbn [map fst]; [|reflexivity].
    destruct (map fst (filter _ rest)) as [|x new];
      destruct (assoc k d) as [l|]; cbn [app]; try reflexivity.
    now rewrite <- app_assoc.
Qed.

Lemma group_keys affs :
  forall d,
    map fst (Screen.group affs d) =
    map fst d ++
    first_occurrences (fun u => u) eqt (map fst d)
      (map snd (filter (fun pr => Screen.related (snd pr)) affs)).
Proof.
  induction affs as [|[pmid aff] rest IH]; intros d;
    cbn [Screen.group filter snd map].
  - now rewrite app_nil_r.
  - destruct (Screen.related aff); [|apply IH].
    cbn [map snd first_occurrences]. rewrite IH, append_to_keys.
    unfold mem. destruct (existsb (eqt aff) (map fst d)); [reflexivity|].
    rewrite <- app_assoc. cbn [app]. do 2 f_equal.
    apply first_occurrences_ext; [apply eqt_eq|].
    intros x. rewrite in_app_iff. simpl. tauto.
Qed.

(** The grouping of [01_screen_affiliations.py].  After the loop the
    dictionary has one key per distinct Padova-related affiliation text, in
    the order of first occurrence, and the list under a key holds the PMID
    of every pair with that text, in order: a text is absent exactly when no
    pair has it.  The length of a list, printed as a number of articles, is
    therefore a number of pairs. *)
Theorem grouping_of_screened_affiliations
    (affs : list (pystr * text)) :
  map fst (Screen.group affs []) =
    distinct (map snd (filter (fun pr => Screen.related (snd pr)) affs)) /\
  (forall k,
     assoc k (Screen.group affs []) =
     match map fst (filter (fun pr => Screen.related (snd pr) && eqt (snd pr) k)
                      affs) with
     | [] => None
     | pmids => Some pmids
     end).
Proof.
  split.
  - now rewrite group_keys.
  - intros k. rewrite group_assoc. cbn [assoc].
    now destruct (map fst (filter _ affs)).
Qed.
